(** * rez: the gitbash shell plugin, and the version and range algebra

    Part I embeds [rezplugins/shell/gitbash.py] (class [GitBash]) and proves
    what its path helpers and its executable lookup compute.  Parts II and
    III model the version order and the range algebra of the resolution
    core from their specification and prove their laws. *)

From Stdlib Require Import Ascii String List Bool Arith NArith Lia.
From Stdlib Require Import OrderedTypeEx.
From stdpp Require Import base list sorting.
Import ListNotations.

Local Open Scope string_scope.

(** ** Python strings and the [str] methods the plugin calls *)

Module PyStr.

(** The three punctuation characters the plugin tests for. *)
Definition backslash : ascii := ascii_of_nat 92.
Definition slash : ascii := ascii_of_nat 47.
Definition colon : ascii := ascii_of_nat 58.

(** [[A-Z]], [[a-z]] and [[A-Za-z]] on character codes. *)
Definition is_upper (c : ascii) : bool :=
  ((65 <=? nat_of_ascii c) && (nat_of_ascii c <=? 90))%nat.
Definition is_lower (c : ascii) : bool :=
  ((97 <=? nat_of_ascii c) && (nat_of_ascii c <=? 122))%nat.
Definition is_letter (c : ascii) : bool := is_upper c || is_lower c.

(** [str.lower] on one character, and on a string. *)
Definition lower_char (c : ascii) : ascii :=
  if is_upper c then ascii_of_nat (nat_of_ascii c + 32) else c.

Fixpoint lower (s : string) : string :=
  match s with
  | EmptyString => EmptyString
  | String c s' => String (lower_char c) (lower s')
  end.

(** [s.replace(old, new)] for a one-character [old]: every occurrence of
    [old] is replaced, left to right. *)
Fixpoint replace (old : ascii) (new : string) (s : string) : string :=
  match s with
  | EmptyString => EmptyString
  | String c s' =>
      if Ascii.eqb c old then new ++ replace old new s'
      else String c (replace old new s')
  end.

(** [needle in hay]: [needle] starts at some position of [hay]. *)
Fixpoint contains (needle hay : string) : bool :=
  String.prefix needle hay ||
  match hay with
  | EmptyString => false
  | String _ hay' => contains needle hay'
  end.

(** Truth value of an object that is [None] or a [str]. *)
Definition truthy (o : option string) : bool :=
  match o with
  | None => false
  | Some EmptyString => false
  | Some (String _ _) => true
  end.

(** The text of an object known to be a [str]. *)
Definition str_of (o : option string) : string :=
  match o with
  | Some s => s
  | None => EmptyString
  end.

(** *** Facts about the [str] methods *)

Lemma append_nil_r (s : string) : s ++ EmptyString = s.
Proof. induction s as [|c s IH]; simpl; [reflexivity | now rewrite IH]. Qed.

Lemma append_assoc (a b c : string) : (a ++ b) ++ c = a ++ (b ++ c).
Proof. induction a as [|x a IH]; simpl; [reflexivity | now rewrite IH]. Qed.

Lemma replace_app old new (a b : string) :
  replace old new (a ++ b) = replace old new a ++ replace old new b.
Proof.
  induction a as [|c a IH]; simpl; [reflexivity |].
  destruct (Ascii.eqb c old); rewrite IH; [now rewrite append_assoc | reflexivity].
Qed.

Lemma prefix_iff (a b : string) :
  String.prefix a b = true <-> exists post, b = a ++ post.
Proof.
  revert b; induction a as [|c a IH]; intros b; simpl.
  - split; [intros _; exists b; reflexivity | intros _; destruct b; reflexivity].
  - destruct b as [|d b]; [split; [discriminate | intros [post H]; discriminate] |].
    simpl. destruct (ascii_dec c d) as [->|Hne].
    + rewrite IH. split; intros [post H]; exists post; [now subst | now inversion H].
    + split; [discriminate | intros [post H]; inversion H; congruence].
Qed.

(** [needle in hay] holds exactly when [hay] splits around a copy of
    [needle]. *)
Lemma contains_iff (needle hay : string) :
  contains needle hay = true <->
  exists pre post, hay = pre ++ needle ++ post.
Proof.
  induction hay as [|c hay IH]; cbn [contains].
  - rewrite orb_false_r, prefix_iff. split.
    + intros [post H]. exists EmptyString, post. exact H.
    + intros [pre [post H]]. destruct pre; simpl in H; [now exists post | discriminate].
  - rewrite orb_true_iff, prefix_iff, IH. split.
    + intros [[post H] | [pre [post H]]].
      * exists EmptyString, post. exact H.
      * exists (String c pre), post. simpl. now rewrite H.
    + intros [pre [post H]]. destruct pre as [|d pre]; simpl in H.
      * left. now exists post.
      * right. inversion H. now exists pre, post.
Qed.

Lemma lower_app (a b : string) : lower (a ++ b) = lower a ++ lower b.
Proof. induction a as [|c a IH]; simpl; [reflexivity | now rewrite IH]. Qed.

Lemma lower_split (s x y : string) :
  lower s = x ++ y -> exists a b, s = a ++ b /\ lower a = x /\ lower b = y.
Proof.
  revert s; induction x as [|c x IH]; intros s H; simpl in H.
  - exists EmptyString, s. auto.
  - destruct s as [|d s]; [discriminate |]. simpl in H. inversion H as [[Hc Hs]].
    destruct (IH s Hs) as [a [b [-> [Ha Hb]]]].
    exists (String d a), b. simpl. rewrite Ha, Hb. auto.
Qed.

End PyStr.

(** ** [class GitBash(Bash)] *)

Module GitBash.
Import PyStr.

(** [config.plugins.shell[cls.name()]]: the plugin's own settings. *)
Record Settings := { executable_fullpath : option string }.

(** The part of [rez.config.config] the plugin reads. *)
Record Config := {
  disable_normalization : bool;
  plugins_shell_gitbash : Settings
}.

(** What a method leaves behind besides its result: log calls and lines
    appended to the script under construction ([self._addline]). *)
Inductive event :=
| print_warning (exepath : string)
| print_debug (path normalized_path : string)
| _addline (path normalized_path : string).

(** Exceptions a method can raise. *)
Inductive exn :=
| RuntimeError (msg : string)
| ValueError (msg : string)
| AttributeError.

Inductive result (A : Type) :=
| Return (a : A)
| Raise (e : exn).
Arguments Return {A} a.
Arguments Raise {A} e.

(** [_drive_regex = re.compile(r'([A-Za-z]):\\')] matched at the start of
    [s]: group 1 and the text after the match. *)
Definition _drive_regex_match (s : string) : option (ascii * string) :=
  match s with
  | String c (String c1 (String c2 rest)) =>
      if is_letter c && Ascii.eqb c1 colon && Ascii.eqb c2 backslash
      then Some (c, rest) else None
  | _ => None
  end.

(** [_drive_regex.sub(repl, s)]: scan left to right; at a match emit
    [repl (group 1)] and continue after the match (three characters on),
    otherwise copy one character. *)
Fixpoint _drive_regex_sub (repl : ascii -> string) (s : string) : string :=
  match s with
  | EmptyString => EmptyString
  | String c s' =>
      match _drive_regex_match s with
      | Some (g1, _) =>
          match s' with
          | String _ (String _ rest) => repl g1 ++ _drive_regex_sub repl rest
          | _ => String c (_drive_regex_sub repl s')
          end
      | None => String c (_drive_regex_sub repl s')
      end
  end.

(** [lowrepl]: ["/{}/".format(match.group(1).lower())]. *)
Definition lowrepl (g1 : ascii) : string :=
  String slash (String (lower_char g1) (String slash EmptyString)).

Section Methods.
Variable config : Config.
(** [os.path.exists] on the current file system. *)
Variable os_path_exists : string -> bool.
(** [Bash.find_executable(name, check_syspaths)], the parent's lookup. *)
Variable Bash_find_executable : string -> bool -> result (option string).

Definition find_executable (name : string) (check_syspaths : bool)
  : list event * result string :=
  let settings := plugins_shell_gitbash config in
  if truthy (executable_fullpath settings) then
    let fullpath := str_of (executable_fullpath settings) in
    if negb (os_path_exists fullpath) then
      ([], Raise (RuntimeError
                    ("Couldn't find executable '" ++ fullpath ++ "'.")))
    else ([], Return fullpath)
  else
    match Bash_find_executable name check_syspaths with
    | Raise e => ([], Raise e)
    | Return exepath =>
        if truthy exepath && contains "system32" (lower (str_of exepath))
        then
          ([print_warning (str_of exepath)],
           Raise (ValueError
                    ("Gitbash executable is not correct: " ++ str_of exepath)))
        else
          match exepath with
          | Some p =>
              ([], Return (replace backslash
                             (String backslash (String backslash EmptyString)) p))
          | None => ([], Raise AttributeError)
          end
    end.

Definition as_path (path : string) : string :=
  if disable_normalization config then path else path.

Definition normalize_paths (path : string) : list event * string :=
  if disable_normalization config then ([], path)
  else
    let normalized_path :=
      replace backslash (String slash EmptyString)
        (_drive_regex_sub lowrepl path) in
    if negb (String.eqb path normalized_path) then
      ([print_debug path normalized_path; _addline path normalized_path],
       normalized_path)
    else ([], normalized_path).

End Methods.

(** *** The rewriting [normalize_paths] is meant to perform

    [normalized path out]: reading [path] left to right, every drive prefix
    (a letter, a colon, a backslash) became a slash, the lowercased letter
    and a slash; every backslash left became a slash; every other character
    was kept. *)

Definition drive_prefix (s : string) : Prop :=
  exists c rest,
    is_letter c = true /\ s = String c (String colon (String backslash rest)).

Inductive normalized : string -> string -> Prop :=
| normalized_end : normalized EmptyString EmptyString
| normalized_drive c rest out :
    is_letter c = true ->
    normalized rest out ->
    normalized (String c (String colon (String backslash rest)))
               (String slash (String (lower_char c) (String slash out)))
| normalized_backslash rest out :
    normalized rest out ->
    normalized (String backslash rest) (String slash out)
| normalized_other c rest out :
    c <> backslash ->
    ~ drive_prefix (String c rest) ->
    normalized rest out ->
    normalized (String c rest) (String c out).

(** [s] contains [needle] when letter case is ignored. *)
Definition contains_ignoring_case (needle s : string) : Prop :=
  exists pre mid post, s = pre ++ mid ++ post /\ lower mid = needle.

(** *** Sample configurations and paths *)

Definition config_normalizing : Config :=
  {| disable_normalization := false;
     plugins_shell_gitbash := {| executable_fullpath := None |} |}.

Definition config_not_normalizing : Config :=
  {| disable_normalization := true;
     plugins_shell_gitbash :=
       {| executable_fullpath := Some "/usr/bin/bash" |} |}.

(** The path [C:], backslash, [foo:D:], backslash, [bah], backslash, [x]. *)
Definition two_drives : string :=
  "C:" ++ String backslash "foo:D:" ++ String backslash "bah" ++
  String backslash "x".

(** [C:], backslash, [Windows], backslash, [System32], backslash,
    [bash.exe]. *)
Definition wsl_bash : string :=
  "C:" ++ String backslash "Windows" ++ String backslash "System32" ++
  String backslash "bash.exe".

(** [C:], backslash, [Git], backslash, [bin], backslash, [bash.exe]. *)
Definition git_bash : string :=
  "C:" ++ String backslash "Git" ++ String backslash "bin" ++
  String backslash "bash.exe".

(** *** Proofs *)

Lemma _drive_regex_match_Some s g rest :
  _drive_regex_match s = Some (g, rest) <->
  is_letter g = true /\ s = String g (String colon (String backslash rest)).
Proof.
  unfold _drive_regex_match.
  destruct s as [|c [|c1 [|c2 r]]]; try (split; [discriminate | intros [_ H]; discriminate]).
  destruct (is_letter c) eqn:Hl; simpl.
  - destruct (Ascii.eqb_spec c1 colon) as [->|H1]; simpl.
    + destruct (Ascii.eqb_spec c2 backslash) as [->|H2]; simpl.
      * split; [intros H; inversion H; subst; auto | intros [_ H]; inversion H; reflexivity].
      * split; [discriminate | intros [_ H]; inversion H; congruence].
    + split; [discriminate | intros [_ H]; inversion H; congruence].
  - split; [discriminate | intros [Hg H]; inversion H; congruence].
Qed.

Lemma _drive_regex_match_None s :
  _drive_regex_match s = None <-> ~ drive_prefix s.
Proof.
  split.
  - intros Hn [c [rest [Hl Hs]]].
    assert (H : _drive_regex_match s = Some (c, rest))
      by (apply _drive_regex_match_Some; auto).
    congruence.
  - intros Hnp. destruct (_drive_regex_match s) as [[g rest]|] eqn:E; [|reflexivity].
    apply _drive_regex_match_Some in E. destruct E as [Hl Hs].
    exfalso. apply Hnp. now exists g, rest.
Qed.

Lemma is_letter_not_backslash c : is_letter c = true -> c <> backslash.
Proof. intros H ->. discriminate H. Qed.

Lemma lower_char_not_backslash c :
  is_letter c = true -> Ascii.eqb (lower_char c) backslash = false.
Proof.
  destruct c as [[] [] [] [] [] [] [] []]; intros H;
    solve [reflexivity | discriminate H].
Qed.

Lemma _drive_regex_sub_match repl c rest :
  is_letter c = true ->
  _drive_regex_sub repl (String c (String colon (String backslash rest))) =
  repl c ++ _drive_regex_sub repl rest.
Proof.
  intros Hl. cbn [_drive_regex_sub].
  assert (H : _drive_regex_match (String c (String colon (String backslash rest)))
              = Some (c, rest)) by (apply _drive_regex_match_Some; auto).
  rewrite H. reflexivity.
Qed.

Lemma _drive_regex_sub_no_match repl c s :
  _drive_regex_match (String c s) = None ->
  _drive_regex_sub repl (String c s) = String c (_drive_regex_sub repl s).
Proof. intros H. cbn [_drive_regex_sub]. rewrite H. reflexivity. Qed.

(** The two passes of the method (the regex substitution, then
    [replace]) perform the one-pass rewriting. *)
Lemma two_passes_normalized (s : string) :
  normalized s
    (replace backslash (String slash EmptyString) (_drive_regex_sub lowrepl s)).
Proof.
  remember (String.length s) as n eqn:Hn.
  revert s Hn. induction n as [n IH] using lt_wf_ind. intros s Hn.
  destruct s as [|c s']; [constructor |].
  destruct (_drive_regex_match (String c s')) as [[g rest]|] eqn:E.
  - apply _drive_regex_match_Some in E. destruct E as [Hl Hs].
    inversion Hs; subst g s'. clear Hs.
    rewrite _drive_regex_sub_match by assumption.
    rewrite replace_app. unfold lowrepl at 1. cbn [replace].
    rewrite (lower_char_not_backslash c Hl). cbn.
    apply normalized_drive; [assumption |].
    eapply IH; [| reflexivity]. subst n. cbn. lia.
  - rewrite _drive_regex_sub_no_match by assumption. cbn [replace].
    destruct (Ascii.eqb_spec c backslash) as [->|Hc].
    + cbn. apply normalized_backslash. eapply IH; [| reflexivity]. subst n. cbn. lia.
    + apply normalized_other; [assumption | now apply _drive_regex_match_None |].
      eapply IH; [| reflexivity]. subst n. cbn. lia.
Qed.

(** No backslash survives the rewriting. *)
Lemma normalized_no_backslash s out :
  normalized s out -> contains (String backslash EmptyString) out = false.
Proof.
  induction 1 as [| c rest out Hl _ IH | rest out _ IH | c rest out Hc _ _ IH];
    cbn [contains].
  - reflexivity.
  - rewrite orb_false_iff. split; [reflexivity |].
    cbn [contains]. rewrite orb_false_iff. split.
    + cbn. destruct (ascii_dec backslash (lower_char c)) as [E|]; [| reflexivity].
      pose proof (lower_char_not_backslash c Hl) as Hn.
      rewrite <- E, Ascii.eqb_refl in Hn. discriminate.
    + cbn [contains]. rewrite orb_false_iff. split; [reflexivity | exact IH].
  - rewrite orb_false_iff. split; [reflexivity | exact IH].
  - rewrite orb_false_iff. split; [| exact IH].
    cbn. destruct (ascii_dec backslash c) as [E|]; [| reflexivity].
    now subst c.
Qed.

(** The rewriting determines its result. *)
Lemma normalized_functional s out1 out2 :
  normalized s out1 -> normalized s out2 -> out1 = out2.
Proof.
  intros H1. revert out2.
  induction H1 as [| c rest out Hl _ IH | rest out _ IH | c rest out Hc Hnp _ IH];
    intros out2 H2; inversion H2; subst;
    try reflexivity;
    try (repeat f_equal; now apply IH);
    try congruence;
    exfalso;
    try match goal with
        | H : is_letter backslash = true |- _ => discriminate H
        end;
    match goal with
    | H : ~ drive_prefix _ |- _ =>
        apply H; eexists _, _; split; [eassumption | reflexivity]
    end.
Qed.

(** [str.lower] keeps the length, so a copy of [needle] in [lower s] sits
    over a piece of [s] that lowers to [needle]. *)
Lemma contains_lower_iff (needle s : string) :
  contains needle (lower s) = true <-> contains_ignoring_case needle s.
Proof.
  rewrite contains_iff. unfold contains_ignoring_case. split.
  - intros [pre [post H]].
    apply lower_split in H. destruct H as [a [b [-> [Ha Hb]]]].
    apply lower_split in Hb. destruct Hb as [m [c [-> [Hm Hc]]]].
    now exists a, m, c.
  - intros [pre [mid [post [-> Hm]]]].
    exists (lower pre), (lower post). now rewrite !lower_app, Hm.
Qed.

(** C8. For every input string [path], [GitBash.as_path] returns [path]
    unchanged, when [config.disable_normalization] is true and when it is
    false. *)
Theorem as_path_identity (config : Config) (path : string) :
  as_path config path = path.
Proof. unfold as_path. destruct (disable_normalization config); reflexivity. Qed.

(** C9. With [config.disable_normalization] false, [normalize_paths]
    returns the rewriting of [path] in which every drive prefix (letter,
    colon, backslash) is a slash, the lowercased letter and a slash, and
    every remaining backslash is a forward slash; with it true, the method
    returns [path] unchanged and adds nothing to the script. *)
Theorem normalize_paths_rewrites (config : Config) (path : string) :
  (disable_normalization config = false ->
   forall out,
     snd (normalize_paths config path) = out <-> normalized path out) /\
  (disable_normalization config = true ->
   normalize_paths config path = ([], path)).
Proof.
  unfold normalize_paths. split; intros Hd; rewrite Hd; [| reflexivity].
  intros out.
  assert (Hn := two_passes_normalized path).
  destruct (negb _); cbn [snd]; (split; [intros <-; exact Hn |]);
    intros Ho; exact (normalized_functional _ _ _ Hn Ho).
Qed.

(** C10. With [plugins.shell.gitbash.executable_fullpath] set,
    [find_executable] returns it when the file exists and raises
    [RuntimeError] when it does not; with it not set, [find_executable]
    raises [ValueError] when the path found by the base [Bash] lookup
    contains [system32] in any letter case, and otherwise returns that path
    with each backslash doubled. *)
Theorem find_executable_outcomes
    (config : Config) (os_path_exists : string -> bool)
    (Bash_find_executable : string -> bool -> result (option string))
    (name : string) (check_syspaths : bool) :
  (forall fullpath,
     executable_fullpath (plugins_shell_gitbash config) = Some fullpath ->
     fullpath <> EmptyString ->
     (os_path_exists fullpath = true ->
      snd (find_executable config os_path_exists Bash_find_executable
             name check_syspaths) = Return fullpath) /\
     (os_path_exists fullpath = false ->
      exists msg,
        snd (find_executable config os_path_exists Bash_find_executable
               name check_syspaths) = Raise (RuntimeError msg))) /\
  (truthy (executable_fullpath (plugins_shell_gitbash config)) = false ->
   forall exepath,
     Bash_find_executable name check_syspaths = Return (Some exepath) ->
     (contains_ignoring_case "system32" exepath ->
      exists msg,
        snd (find_executable config os_path_exists Bash_find_executable
               name check_syspaths) = Raise (ValueError msg)) /\
     (~ contains_ignoring_case "system32" exepath ->
      snd (find_executable config os_path_exists Bash_find_executable
             name check_syspaths) =
      Return (replace backslash
                (String backslash (String backslash EmptyString)) exepath))).
Proof.
  unfold find_executable. split.
  - intros fullpath Hset Hne. rewrite Hset.
    destruct fullpath as [|c fullpath]; [congruence |]. cbn [truthy str_of].
    split; intros Hex; rewrite Hex; cbn; eauto.
  - intros Hunset exepath Hbase. rewrite Hunset, Hbase. cbn [str_of].
    split; intros Hsys.
    + apply contains_lower_iff in Hsys. rewrite Hsys.
      destruct exepath as [|c exepath]; [discriminate Hsys |].
      cbn. eauto.
    + destruct (contains "system32" (lower exepath)) eqn:E.
      * exfalso. apply Hsys. now apply contains_lower_iff.
      * rewrite andb_false_r. reflexivity.
Qed.

Lemma normalize_paths_rewrites_witness :
  normalized two_drives "/c/foo:/d/bah/x" /\
  normalize_paths config_not_normalizing two_drives = ([], two_drives).
Proof.
  split.
  - apply (proj1 (normalize_paths_rewrites config_normalizing two_drives)
             eq_refl).
    reflexivity.
  - apply (proj2 (normalize_paths_rewrites config_not_normalizing two_drives)
             eq_refl).
Defined.

Lemma find_executable_outcomes_witness :
  snd (find_executable config_not_normalizing (fun _ => true)
         (fun _ _ => Return (Some git_bash)) "bash" false)
  = Return "/usr/bin/bash" /\
  (exists msg,
     snd (find_executable config_not_normalizing (fun _ => false)
            (fun _ _ => Return (Some git_bash)) "bash" false)
     = Raise (RuntimeError msg)) /\
  (exists msg,
     snd (find_executable config_normalizing (fun _ => true)
            (fun _ _ => Return (Some wsl_bash)) "bash" false)
     = Raise (ValueError msg)) /\
  snd (find_executable config_normalizing (fun _ => true)
         (fun _ _ => Return (Some git_bash)) "bash" false)
  = Return ("C:" ++ String backslash (String backslash "Git") ++
            String backslash (String backslash "bin") ++
            String backslash (String backslash "bash.exe")).
Proof.
  assert (Hne : "/usr/bin/bash" <> EmptyString) by discriminate.
  split; [| split; [| split]].
  - exact (proj1 (proj1 (find_executable_outcomes config_not_normalizing
                           (fun _ => true) (fun _ _ => Return (Some git_bash))
                           "bash" false) "/usr/bin/bash" eq_refl Hne) eq_refl).
  - exact (proj2 (proj1 (find_executable_outcomes config_not_normalizing
                           (fun _ => false) (fun _ _ => Return (Some git_bash))
                           "bash" false) "/usr/bin/bash" eq_refl Hne) eq_refl).
  - apply (proj1 (proj2 (find_executable_outcomes config_normalizing
                           (fun _ => true) (fun _ _ => Return (Some wsl_bash))
                           "bash" false) eq_refl wsl_bash eq_refl)).
    apply contains_lower_iff. reflexivity.
  - apply (proj2 (proj2 (find_executable_outcomes config_normalizing
                           (fun _ => true) (fun _ _ => Return (Some git_bash))
                           "bash" false) eq_refl git_bash eq_refl)).
    intros H. apply contains_lower_iff in H. discriminate H.
Defined.

End GitBash.

(** ** More on [GitBash.find_executable] *)

Module FindExecutable.
Import PyStr GitBash.

(** [s] holds the character [c]. *)
Fixpoint has_char (c : ascii) (s : string) : bool :=
  match s with
  | EmptyString => false
  | String d s' => Ascii.eqb d c || has_char c s'
  end.

(** The text of the exception raised for a wrong executable. *)
Definition not_correct (exepath : string) : string :=
  "Gitbash executable is not correct: " ++ exepath.

Lemma prefix_nil s : String.prefix EmptyString s = true.
Proof. now destruct s. Qed.

Lemma prefix_cons x n c h :
  String.prefix (String x n) (String c h) =
  if Ascii.eqb x c then String.prefix n h else false.
Proof.
  simpl. destruct (ascii_dec x c) as [->|Hne].
  - now rewrite Ascii.eqb_refl.
  - destruct (Ascii.eqb_spec x c); [contradiction | reflexivity].
Qed.

Lemma lower_char_eqb_backslash c :
  Ascii.eqb (lower_char c) backslash = Ascii.eqb c backslash.
Proof. destruct c as [[] [] [] [] [] [] [] []]; reflexivity. Qed.

(** Lowering and doubling the backslashes commute. *)
Lemma lower_replace_backslash s :
  lower (replace backslash (String backslash (String backslash EmptyString)) s)
  = replace backslash (String backslash (String backslash EmptyString)) (lower s).
Proof.
  induction s as [|c s IH]; [reflexivity |].
  cbn [replace lower]. rewrite lower_char_eqb_backslash.
  destruct (Ascii.eqb c backslash); cbn [append lower]; now rewrite IH.
Qed.

(** A text without backslash that starts the doubled path starts the path. *)
Lemma prefix_replace_backslash n h :
  has_char backslash n = false ->
  String.prefix n
    (replace backslash (String backslash (String backslash EmptyString)) h) = true ->
  String.prefix n h = true.
Proof.
  revert h. induction n as [|x n IH]; intros h Hn Hp; [apply prefix_nil |].
  cbn [has_char] in Hn. apply orb_false_iff in Hn. destruct Hn as [Hx Hn].
  destruct h as [|c h]; [discriminate Hp |].
  cbn [replace] in Hp. rewrite prefix_cons.
  destruct (Ascii.eqb_spec c backslash) as [->|Hc].
  - cbn [append] in Hp. rewrite prefix_cons, Hx in Hp. discriminate.
  - rewrite prefix_cons in Hp. destruct (Ascii.eqb x c); [| discriminate].
    now apply IH.
Qed.

(** Doubling the backslashes brings in no new copy of a text that has no
    backslash. *)
Lemma contains_replace_backslash n h :
  has_char backslash n = false ->
  contains n
    (replace backslash (String backslash (String backslash EmptyString)) h) = true ->
  contains n h = true.
Proof.
  intros Hn. induction h as [|c h IH]; [trivial |].
  intros H. cbn [contains]. apply orb_true_iff.
  destruct (Ascii.eqb_spec c backslash) as [->|Hc].
  - destruct n as [|x n]; [left; reflexivity |].
    cbn [has_char] in Hn. apply orb_false_iff in Hn. destruct Hn as [Hx _].
    right. apply IH.
    cbn [replace] in H. rewrite Ascii.eqb_refl in H. cbn [append contains] in H.
    rewrite !prefix_cons, Hx in H. exact H.
  - assert (E : replace backslash (String backslash (String backslash EmptyString))
                  (String c h)
                = String c (replace backslash
                              (String backslash (String backslash EmptyString)) h)).
    { cbn [replace]. destruct (Ascii.eqb_spec c backslash); [contradiction | reflexivity]. }
    pose proof H as H'. rewrite E in H'. cbn [contains] in H'.
    apply orb_true_iff in H'. destruct H' as [Hp | Hc'].
    + left. apply prefix_replace_backslash; [assumption |]. now rewrite E.
    + right. now apply IH.
Qed.

Section Outcomes.
Variable config : Config.
Variable os_path_exists : string -> bool.
Variable Bash_find_executable : string -> bool -> result (option string).
Variables (name : string) (check_syspaths : bool).

(** A configured path decides the call alone: the parent's lookup is not
    consulted (whatever it would find, under whatever name), and nothing is
    logged. *)
Theorem configured_path_decides :
  truthy (executable_fullpath (plugins_shell_gitbash config)) = true ->
  fst (find_executable config os_path_exists Bash_find_executable
         name check_syspaths) = [] /\
  forall other_lookup other_name other_check,
    find_executable config os_path_exists Bash_find_executable
      name check_syspaths
    = find_executable config os_path_exists other_lookup
        other_name other_check.
Proof.
  intros Hset. unfold find_executable. rewrite Hset.
  split; [| reflexivity]. now destruct (negb _).
Qed.

(** With no configured path, a lookup that fails makes the call fail: an
    exception of the parent is passed on as it is, and a lookup that
    returns [None] passes the [exepath and ...] guard and ends in the
    [AttributeError] of [None.replace]; neither logs a warning. *)
Theorem failed_lookup_fails :
  truthy (executable_fullpath (plugins_shell_gitbash config)) = false ->
  (forall e,
     Bash_find_executable name check_syspaths = Raise e ->
     find_executable config os_path_exists Bash_find_executable
       name check_syspaths = ([], Raise e)) /\
  (Bash_find_executable name check_syspaths = Return None ->
   find_executable config os_path_exists Bash_find_executable
     name check_syspaths = ([], Raise AttributeError)).
Proof.
  intros Hunset. unfold find_executable. rewrite Hunset.
  split; [intros e He | intros He]; now rewrite He.
Qed.

(** A warning is logged only together with the [ValueError] for a path the
    parent found under [system32]; it is the only thing logged, and warning
    and exception name that path. *)
Theorem warning_only_with_value_error (e : event) (rest : list event) :
  fst (find_executable config os_path_exists Bash_find_executable
         name check_syspaths) = e :: rest ->
  exists exepath,
    find_executable config os_path_exists Bash_find_executable
      name check_syspaths
    = ([print_warning exepath], Raise (ValueError (not_correct exepath))) /\
    truthy (executable_fullpath (plugins_shell_gitbash config)) = false /\
    Bash_find_executable name check_syspaths = Return (Some exepath) /\
    contains_ignoring_case "system32" exepath.
Proof.
  unfold find_executable.
  destruct (truthy (executable_fullpath (plugins_shell_gitbash config))).
  { destruct (negb _); discriminate. }
  destruct (Bash_find_executable name check_syspaths) as [exepath|err];
    [| discriminate].
  destruct (truthy exepath && contains "system32" (lower (str_of exepath))) eqn:E.
  - intros _. apply andb_true_iff in E. destruct E as [Ht Hc].
    destruct exepath as [p|]; [| discriminate Ht]. cbn [str_of] in *.
    exists p. repeat split. now apply contains_lower_iff.
  - destruct exepath; discriminate.
Qed.

(** The lookup never hands out a path under [system32]: whatever
    [find_executable] returns without a configured path holds no
    [system32], in any letter case. *)
Theorem looked_up_path_not_system32 (exepath : string) :
  truthy (executable_fullpath (plugins_shell_gitbash config)) = false ->
  snd (find_executable config os_path_exists Bash_find_executable
         name check_syspaths) = Return exepath ->
  ~ contains_ignoring_case "system32" exepath.
Proof.
  intros Hunset. unfold find_executable. rewrite Hunset.
  destruct (Bash_find_executable name check_syspaths) as [found|err];
    [| discriminate].
  destruct (truthy found && contains "system32" (lower (str_of found))) eqn:E;
    [discriminate |].
  destruct found as [p|]; [| discriminate].
  cbn [snd str_of] in *. intros H. inversion H as [Hq]. clear H.
  intros Hsys. apply contains_lower_iff in Hsys.
  rewrite lower_replace_backslash in Hsys.
  apply contains_replace_backslash in Hsys; [| reflexivity].
  rewrite Hsys, andb_true_r in E.
  destruct p; [discriminate Hsys | discriminate E].
Qed.

End Outcomes.

Lemma configured_path_decides_witness :
  fst (find_executable config_not_normalizing (fun _ => true)
         (fun _ _ => Return (Some wsl_bash)) "bash" false) = [] /\
  find_executable config_not_normalizing (fun _ => true)
    (fun _ _ => Return (Some wsl_bash)) "bash" false
  = find_executable config_not_normalizing (fun _ => true)
      (fun _ _ => Raise AttributeError) "sh" true.
Proof.
  pose proof (configured_path_decides config_not_normalizing (fun _ => true)
                (fun _ _ => Return (Some wsl_bash)) "bash" false eq_refl)
    as [Hlog Hsame].
  split; [exact Hlog |].
  exact (Hsame (fun _ _ => Raise AttributeError) "sh" true).
Defined.

Lemma failed_lookup_fails_witness :
  find_executable config_normalizing (fun _ => true)
    (fun _ _ => Raise (RuntimeError "no bash")) "bash" false
  = ([], Raise (RuntimeError "no bash")) /\
  find_executable config_normalizing (fun _ => true)
    (fun _ _ => Return None) "bash" false
  = ([], Raise AttributeError).
Proof.
  split.
  - exact (proj1 (failed_lookup_fails config_normalizing (fun _ => true)
                    (fun _ _ => Raise (RuntimeError "no bash")) "bash" false
                    eq_refl) _ eq_refl).
  - exact (proj2 (failed_lookup_fails config_normalizing (fun _ => true)
                    (fun _ _ => Return None) "bash" false eq_refl) eq_refl).
Defined.

Lemma warning_only_with_value_error_witness :
  exists exepath,
    find_executable config_normalizing (fun _ => true)
      (fun _ _ => Return (Some wsl_bash)) "bash" false
    = ([print_warning exepath], Raise (ValueError (not_correct exepath))) /\
    truthy (executable_fullpath (plugins_shell_gitbash config_normalizing))
    = false /\
    Return (Some wsl_bash) = Return (Some exepath) /\
    contains_ignoring_case "system32" exepath.
Proof.
  exact (warning_only_with_value_error config_normalizing (fun _ => true)
           (fun _ _ => Return (Some wsl_bash)) "bash" false
           (print_warning wsl_bash) [] eq_refl).
Defined.

Lemma looked_up_path_not_system32_witness :
  contains "system32"
    (lower (replace backslash (String backslash (String backslash EmptyString))
              git_bash)) = false.
Proof.
  destruct (contains "system32" _) eqn:E; [| reflexivity].
  exfalso. apply contains_lower_iff in E. revert E.
  exact (looked_up_path_not_system32 config_normalizing (fun _ => true)
           (fun _ _ => Return (Some git_bash)) "bash" false _ eq_refl eq_refl).
Defined.

End FindExecutable.

(** ** More on [GitBash.normalize_paths] *)

Module NormalizePaths.
Import PyStr GitBash FindExecutable.

(** [path] starts with a backslash. *)
Definition starts_with_backslash (path : string) : bool :=
  match path with
  | String c _ => Ascii.eqb c backslash
  | EmptyString => false
  end.

(** [pathsep.join(paths)] with the class's [pathsep = ':']. *)
Definition join_paths (paths : list string) : string :=
  String.concat (String colon EmptyString) paths.

Lemma normalize_paths_value config path :
  disable_normalization config = false ->
  snd (normalize_paths config path)
  = replace backslash (String slash EmptyString) (_drive_regex_sub lowrepl path).
Proof.
  intros Hd. unfold normalize_paths. rewrite Hd. now destruct (negb _).
Qed.

Lemma normalize_paths_normalized config path :
  disable_normalization config = false ->
  normalized path (snd (normalize_paths config path)).
Proof.
  intros Hd. rewrite normalize_paths_value by assumption.
  apply two_passes_normalized.
Qed.

Lemma contains_char_has_char c s :
  contains (String c EmptyString) s = has_char c s.
Proof.
  induction s as [|d s IH]; [reflexivity |].
  cbn [contains has_char]. rewrite prefix_cons, prefix_nil, IH.
  rewrite (Ascii.eqb_sym c d). now destruct (Ascii.eqb d c).
Qed.

(** A text without backslash is its own rewriting. *)
Lemma normalized_without_backslash s :
  has_char backslash s = false -> normalized s s.
Proof.
  induction s as [|c s IH]; [constructor |].
  cbn [has_char]. rewrite orb_false_iff. intros [Hc Hs].
  apply normalized_other; [| | now apply IH].
  - intros ->. discriminate Hc.
  - intros [d [rest [_ H]]]. inversion H; subst.
    cbn [has_char] in Hs. rewrite Ascii.eqb_refl, orb_true_r in Hs. discriminate.
Qed.

Lemma normalized_length s out :
  normalized s out -> String.length out = String.length s.
Proof. induction 1; cbn [String.length]; congruence. Qed.

(** The rewriting of two texts joined by a colon is the rewritings joined
    by a colon, unless the colon would complete a drive prefix. *)
Lemma normalized_join p1 o1 p2 o2 :
  normalized p1 o1 -> normalized p2 o2 ->
  starts_with_backslash p2 = false ->
  normalized (p1 ++ String colon p2) (o1 ++ String colon o2).
Proof.
  intros H1 H2 Hb.
  induction H1 as [| c rest out Hl _ IH | rest out _ IH | c rest out Hc Hnp _ IH];
    cbn [append].
  - apply normalized_other; [discriminate | | exact H2].
    intros [d [r [Hd H]]]. inversion H; subst. discriminate Hd.
  - now apply normalized_drive.
  - now apply normalized_backslash.
  - apply normalized_other; [assumption | | assumption].
    intros [d [r [Hd H]]]. inversion H as [[Hcd Hr]]. subst d.
    destruct rest as [|x [|y rest]]; cbn [append] in Hr.
    + inversion Hr; subst. cbn in Hb. rewrite Ascii.eqb_refl in Hb. discriminate.
    + inversion Hr.
    + inversion Hr; subst. apply Hnp. now exists c, rest.
Qed.

Section Properties.
Variable config : Config.
Hypothesis normalizing : disable_normalization config = false.

(** The result holds no backslash. *)
Theorem result_has_no_backslash (path : string) :
  has_char backslash (snd (normalize_paths config path)) = false.
Proof.
  rewrite <- contains_char_has_char.
  eapply normalized_no_backslash, normalize_paths_normalized, normalizing.
Qed.

(** A path is returned unchanged exactly when it holds no backslash; then
    nothing is logged and no line is added to the script.  A path that
    changes is logged once and noted once in the script, both with the path
    and its result. *)
Theorem unchanged_iff_no_backslash (path : string) :
  (snd (normalize_paths config path) = path <->
   has_char backslash path = false) /\
  (has_char backslash path = false ->
   normalize_paths config path = ([], path)) /\
  (has_char backslash path = true ->
   fst (normalize_paths config path)
   = [print_debug path (snd (normalize_paths config path));
      _addline path (snd (normalize_paths config path))]).
Proof.
  assert (Hiff : snd (normalize_paths config path) = path <->
                 has_char backslash path = false).
  { split.
    - intros H. rewrite <- H at 1. apply result_has_no_backslash.
    - intros H. eapply normalized_functional.
      + now apply normalize_paths_normalized.
      + now apply normalized_without_backslash. }
  split; [exact Hiff |].
  pose proof (normalize_paths_value config path normalizing) as Hv.
  unfold normalize_paths in *. rewrite normalizing in *.
  set (out := replace backslash (String slash EmptyString)
                (_drive_regex_sub lowrepl path)) in *.
  destruct (String.eqb_spec path out) as [Heq|Hne]; cbn [negb fst snd] in *.
  - split; [intros _; now rewrite <- Heq |].
    intros Hb. symmetry in Heq. apply Hiff in Heq. congruence.
  - split; [| reflexivity].
    intros Hb. apply Hiff in Hb. congruence.
Qed.

(** The result is as long as the path: a drive prefix and its replacement
    are three characters each. *)
Theorem length_kept (path : string) :
  String.length (snd (normalize_paths config path)) = String.length path.
Proof. apply normalized_length. now apply normalize_paths_normalized. Qed.

(** A [':']-joined list of paths is normalised path by path, provided no
    path after the first starts with a backslash (which, after the colon
    and a letter ending the path before, would read as a drive prefix). *)
Theorem joined_paths_normalized_one_by_one (paths : list string) :
  forallb (fun p => negb (starts_with_backslash p)) (tl paths) = true ->
  snd (normalize_paths config (join_paths paths))
  = join_paths (map (fun p => snd (normalize_paths config p)) paths).
Proof.
  intros Htl. eapply normalized_functional.
  - now apply normalize_paths_normalized.
  - unfold join_paths. destruct paths as [|p paths]; [constructor |].
    cbn [tl] in Htl. revert p.
    induction paths as [|q paths IH]; intros p.
    + cbn. now apply normalize_paths_normalized.
    + cbn [forallb] in Htl. apply andb_true_iff in Htl. destruct Htl as [Hq Htl].
      cbn [map String.concat]. cbn [map String.concat] in IH.
      cbn [append].
      apply normalized_join.
      * now apply normalize_paths_normalized.
      * now apply IH.
      * destruct paths as [|q' paths]; cbn [String.concat].
        -- now apply negb_true_iff in Hq.
        -- destruct q; [reflexivity |]. now apply negb_true_iff in Hq.
Qed.

End Properties.

(** Normalising twice is normalising once: the second pass returns its
    input and logs nothing, with normalisation enabled or not. *)
Theorem normalize_paths_idempotent (config : Config) (path : string) :
  normalize_paths config (snd (normalize_paths config path))
  = ([], snd (normalize_paths config path)).
Proof.
  destruct (disable_normalization config) eqn:Hd.
  - unfold normalize_paths. now rewrite Hd.
  - apply unchanged_iff_no_backslash; [assumption |].
    now apply result_has_no_backslash.
Qed.

Lemma result_has_no_backslash_witness :
  has_char backslash (snd (normalize_paths config_normalizing two_drives))
  = false.
Proof. exact (result_has_no_backslash config_normalizing eq_refl two_drives). Defined.

Lemma unchanged_iff_no_backslash_witness :
  normalize_paths config_normalizing "/c/foo:/d/bah/x"
  = ([], "/c/foo:/d/bah/x") /\
  fst (normalize_paths config_normalizing two_drives)
  = [print_debug two_drives
       (snd (normalize_paths config_normalizing two_drives));
     _addline two_drives
       (snd (normalize_paths config_normalizing two_drives))].
Proof.
  split.
  - exact (proj1 (proj2 (unchanged_iff_no_backslash config_normalizing eq_refl
                           "/c/foo:/d/bah/x")) eq_refl).
  - exact (proj2 (proj2 (unchanged_iff_no_backslash config_normalizing eq_refl
                           two_drives)) eq_refl).
Defined.

Lemma length_kept_witness :
  String.length (snd (normalize_paths config_normalizing two_drives))
  = String.length two_drives.
Proof. exact (length_kept config_normalizing eq_refl two_drives). Defined.

Lemma joined_paths_normalized_one_by_one_witness :
  snd (normalize_paths config_normalizing (join_paths [wsl_bash; git_bash]))
  = join_paths [snd (normalize_paths config_normalizing wsl_bash);
                snd (normalize_paths config_normalizing git_bash)].
Proof.
  exact (joined_paths_normalized_one_by_one config_normalizing eq_refl
           [wsl_bash; git_bash] eq_refl).
Defined.

End NormalizePaths.

(** ** [GitBash.normalize_path] and [GitBash.as_shell_path] *)

Module NormalizePath.
Import PyStr GitBash FindExecutable.

(** [GitBash.name()]. *)
Definition name : string := "gitbash".

(** What [normalize_path] reads of [rez.config.config]: the settings of
    Part I and two dictionaries, each read with [dict.get]. *)
Record PathConfig := {
  config : Config;
  shell_pathed_env_vars : string -> option (list string);
  env_var_separators : string -> option string
}.

(** The log calls of [normalize_path], by message, and the line it adds to
    the script. *)
Inductive path_event :=
| debug_separator_overridden
| debug_pythonpath_missing
| error_improperly_configured
| debug_path_before (path : string)
| debug_path_after (path : string)
| debug_path_normalized (path normalized_path : string)
| addline_path_normalized (path normalized_path : string).

Definition dollar : ascii := ascii_of_nat 36.
Definition open_brace : ascii := ascii_of_nat 123.
Definition close_brace : ascii := ascii_of_nat 125.
Definition semicolon : ascii := ascii_of_nat 59.

(** [valid_sep = ";"]. *)
Definition valid_sep : string := String semicolon EmptyString.

(** [a != b] on objects that are [None] or a [str]. *)
Definition differs (a b : option string) : bool :=
  match a, b with
  | None, None => false
  | Some x, Some y => negb (String.eqb x y)
  | _, _ => true
  end.

(** Truth value of an object that is [None] or a list. *)
Definition list_truthy {A} (o : option (list A)) : bool :=
  match o with
  | Some (_ :: _) => true
  | _ => false
  end.

(** The [for idx, var in enumerate(shell_pathed_vars)] loop from index
    [idx] on, [len] being [len(shell_pathed_vars)]: the messages logged and
    the final [env_var_sep]. *)
Fixpoint separator_loop (separators : string -> option string)
    (len idx : nat) (vars : list string) (env_var_sep : option string)
  : list path_event * option string :=
  match vars with
  | [] => ([], env_var_sep)
  | var :: vars' =>
      let env_var_sep := separators var in
      if String.eqb var "PYTHONPATH" && differs env_var_sep (Some valid_sep)
      then ([debug_separator_overridden], Some valid_sep)
      else if Nat.eqb idx (len - 1)
      then
        let '(events, sep) :=
          separator_loop separators len (S idx) vars' (Some valid_sep) in
        (debug_pythonpath_missing :: events, sep)
      else separator_loop separators len (S idx) vars' env_var_sep
  end.

(** [[^\}]+\}] from the start of [s]: the text up to the first closing
    brace, and the text after that brace. *)
Fixpoint scan_to_brace (s : string) : option (string * string) :=
  match s with
  | EmptyString => None
  | String c s' =>
      if Ascii.eqb c close_brace then Some (EmptyString, s')
      else
        match scan_to_brace s' with
        | Some (body, after) => Some (String c body, after)
        | None => None
        end
  end.

(** [env_var_regex = r"(\$\{[^\}]+\})([:;])"] matched at the start of
    [s]: group 1, group 2 and the text after the match. *)
Definition env_var_match (s : string) : option (string * ascii * string) :=
  match s with
  | String c0 (String c1 t) =>
      if Ascii.eqb c0 dollar && Ascii.eqb c1 open_brace then
        match scan_to_brace t with
        | Some (String b body, String sep rest) =>
            if Ascii.eqb sep colon || Ascii.eqb sep semicolon
            then Some (String dollar (String open_brace (String b body))
                         ++ String close_brace EmptyString,
                       sep, rest)
            else None
        | _ => None
        end
      else None
  | _ => None
  end.

(** [re.sub(env_var_regex, "\\1" + env_var_sep, s, 0)]: scan left to
    right; at a match emit group 1 and [env_var_sep] and go on after the
    match, otherwise copy one character.  [fuel] bounds the number of
    steps; the length of [s] is enough. *)
Fixpoint env_var_sub_steps (fuel : nat) (env_var_sep : string) (s : string)
  : string :=
  match fuel with
  | O => s
  | S fuel' =>
      match s with
      | EmptyString => EmptyString
      | String c s' =>
          match env_var_match s with
          | Some (group1, _, rest) =>
              group1 ++ env_var_sep ++ env_var_sub_steps fuel' env_var_sep rest
          | None => String c (env_var_sub_steps fuel' env_var_sep s')
          end
      end
  end.

Definition env_var_sub (env_var_sep : string) (s : string) : string :=
  env_var_sub_steps (String.length s) env_var_sep s.

Section Methods.
Variable pconfig : PathConfig.
(** [rez.utils.cygpath.convert_path(path, mode, force_fwdslash)]. *)
Variable convert_path : string -> string -> bool -> string.

Definition normalize_path (path mode : string)
  : list path_event * string :=
  if disable_normalization (config pconfig) then ([], path)
  else
    let shell := name in
    let shell_pathed_vars := shell_pathed_env_vars pconfig shell in
    let '(events1, env_var_sep) :=
      if list_truthy shell_pathed_vars then
        let vars := match shell_pathed_vars with Some l => l | None => [] end in
        separator_loop (env_var_separators pconfig) (List.length vars) 0 vars None
      else ([error_improperly_configured], None) in
    let '(events2, path) :=
      if truthy env_var_sep then
        let path' := env_var_sub (str_of env_var_sep) path in
        ([debug_path_before path; debug_path_after path'], path')
      else ([], path) in
    let normalized_path := convert_path path mode true in
    let events3 :=
      if negb (String.eqb path normalized_path) then
        [debug_path_normalized path normalized_path;
         addline_path_normalized path normalized_path]
      else [] in
    ((events1 ++ events2 ++ events3)%list, normalized_path).

Definition as_shell_path (path : string) : list path_event * string :=
  normalize_path path "mixed".

End Methods.

(** [out] is [s] with some colons turned into semicolons, and nothing else
    changed. *)
Inductive colons_to_semicolons : string -> string -> Prop :=
| cts_end : colons_to_semicolons EmptyString EmptyString
| cts_same c s out :
    colons_to_semicolons s out ->
    colons_to_semicolons (String c s) (String c out)
| cts_changed s out :
    colons_to_semicolons s out ->
    colons_to_semicolons (String colon s) (String semicolon out).

(** Sample configurations: [PYTHONPATH] listed for gitbash, with the
    separator [";"], with [":"], and with none. *)
Definition pythonpath_listed (shell : string) : option (list string) :=
  if String.eqb shell "gitbash" then Some ["CMAKE_MODULE_PATH"; "PYTHONPATH"]
  else None.

Definition separators_semicolon (var : string) : option string :=
  if String.eqb var "PYTHONPATH" then Some ";" else None.

Definition separators_colon (var : string) : option string :=
  if String.eqb var "PYTHONPATH" then Some ":" else Some ",".

Definition pconfig_semicolon : PathConfig :=
  {| config := config_normalizing;
     shell_pathed_env_vars := pythonpath_listed;
     env_var_separators := separators_semicolon |}.

Definition pconfig_colon : PathConfig :=
  {| config := config_normalizing;
     shell_pathed_env_vars := pythonpath_listed;
     env_var_separators := separators_colon |}.

Definition pconfig_unlisted : PathConfig :=
  {| config := config_normalizing;
     shell_pathed_env_vars := fun _ => None;
     env_var_separators := separators_colon |}.

(** A stand-in for [convert_path]: forward slashes only. *)
Definition slashes_only (path mode : string) (force_fwdslash : bool) : string :=
  replace backslash (String slash EmptyString) path.

(** *** The separator loop *)

Lemma differs_Some a x : differs a (Some x) = true <-> a <> Some x.
Proof.
  destruct a as [y|]; simpl.
  - rewrite negb_true_iff, String.eqb_neq. split; congruence.
  - split; [discriminate | reflexivity].
Qed.

(** Whatever the dictionary of separators holds, the loop over a non-empty
    list ends with [";"]. *)
Lemma separator_loop_semicolon separators len idx vars sep0 :
  vars <> [] -> idx + List.length vars = len ->
  snd (separator_loop separators len idx vars sep0) = Some valid_sep.
Proof.
  revert idx sep0. induction vars as [|var vars IH]; intros idx sep0 Hne Hlen;
    [congruence |].
  cbn [separator_loop].
  destruct (String.eqb var "PYTHONPATH" && _); [reflexivity |].
  destruct (Nat.eqb_spec idx (len - 1)) as [Hlast|Hmore].
  - assert (vars = []) as -> by (destruct vars; [reflexivity | cbn in Hlen; lia]).
    reflexivity.
  - apply IH; [| cbn in Hlen; lia].
    intros ->. cbn in Hlen. lia.
Qed.

(** The loop logs one message: that the separator of [PYTHONPATH] is
    overridden when [PYTHONPATH] is listed with another separator than
    [";"], and otherwise that [PYTHONPATH] is missing. *)
Lemma separator_loop_events separators len idx vars sep0 :
  vars <> [] -> idx + List.length vars = len ->
  fst (separator_loop separators len idx vars sep0)
  = if existsb (String.eqb "PYTHONPATH") vars &&
       differs (separators "PYTHONPATH") (Some valid_sep)
    then [debug_separator_overridden] else [debug_pythonpath_missing].
Proof.
  revert idx sep0. induction vars as [|var vars IH]; intros idx sep0 Hne Hlen;
    [congruence |].
  cbn [separator_loop existsb]. rewrite (String.eqb_sym "PYTHONPATH" var).
  destruct (String.eqb_spec var "PYTHONPATH") as [->|Hvar]; cbn [andb orb].
  - destruct (differs (separators "PYTHONPATH") (Some valid_sep)) eqn:Hd;
      [reflexivity |].
    destruct (Nat.eqb_spec idx (len - 1)) as [Hlast|Hmore].
    + assert (vars = []) as -> by (destruct vars; [reflexivity | cbn in Hlen; lia]).
      reflexivity.
    + rewrite IH; [now rewrite andb_false_r | | cbn in Hlen; lia].
      intros ->. cbn in Hlen. lia.
  - destruct (Nat.eqb_spec idx (len - 1)) as [Hlast|Hmore].
    + assert (vars = []) as -> by (destruct vars; [reflexivity | cbn in Hlen; lia]).
      reflexivity.
    + apply IH; [| cbn in Hlen; lia].
      intros ->. cbn in Hlen. lia.
Qed.

(** *** The substitution of separators *)

Lemma has_char_append c (a b : string) :
  has_char c (a ++ b) = has_char c a || has_char c b.
Proof.
  induction a as [|d a IH]; [reflexivity |].
  cbn [append has_char]. now rewrite IH, orb_assoc.
Qed.

Lemma scan_to_brace_Some s body after :
  scan_to_brace s = Some (body, after) ->
  s = body ++ String close_brace after.
Proof.
  revert body. induction s as [|c s IH]; intros body H; [discriminate |].
  cbn [scan_to_brace] in H. destruct (Ascii.eqb_spec c close_brace) as [->|Hc].
  - now inversion H.
  - destruct (scan_to_brace s) as [[b a]|]; [| discriminate].
    inversion H; subst. cbn [append]. f_equal. now apply IH.
Qed.

Lemma env_var_match_Some s group1 sep rest :
  env_var_match s = Some (group1, sep, rest) ->
  s = group1 ++ String sep rest /\ (sep = colon \/ sep = semicolon).
Proof.
  unfold env_var_match. destruct s as [|c0 [|c1 t]]; try discriminate.
  destruct (Ascii.eqb_spec c0 dollar) as [->|]; [| discriminate].
  destruct (Ascii.eqb_spec c1 open_brace) as [->|]; [| discriminate].
  cbn [andb].
  destruct (scan_to_brace t) as [[[|b body] [|x after]]|] eqn:E; try discriminate.
  apply scan_to_brace_Some in E. subst t.
  destruct (Ascii.eqb_spec x colon) as [->|Hx]; cbn [orb].
  - intros H. inversion H; subst. split; [| now left].
    cbn [append]. now rewrite append_assoc.
  - destruct (Ascii.eqb_spec x semicolon) as [->|Hx']; [| discriminate].
    intros H. inversion H; subst. split; [| now right].
    cbn [append]. now rewrite append_assoc.
Qed.

Lemma env_var_match_no_dollar c s :
  c <> dollar -> env_var_match (String c s) = None.
Proof.
  intros Hc. unfold env_var_match. destruct s as [|c1 t]; [reflexivity |].
  destruct (Ascii.eqb_spec c dollar); [contradiction | reflexivity].
Qed.

Lemma colons_to_semicolons_refl s : colons_to_semicolons s s.
Proof. induction s; now constructor. Qed.

Lemma colons_to_semicolons_app a s out :
  colons_to_semicolons s out -> colons_to_semicolons (a ++ s) (a ++ out).
Proof. intros H. induction a; cbn [append]; [assumption | now constructor]. Qed.

Lemma colons_to_semicolons_length s out :
  colons_to_semicolons s out -> String.length out = String.length s.
Proof. induction 1; cbn [String.length]; congruence. Qed.

Lemma length_append (a b : string) :
  String.length (a ++ b) = String.length a + String.length b.
Proof. induction a as [|c a IH]; cbn; [reflexivity | now rewrite IH]. Qed.

(** With [";"] as separator the substitution only turns colons into
    semicolons. *)
Lemma env_var_sub_steps_colons fuel s :
  String.length s <= fuel ->
  colons_to_semicolons s (env_var_sub_steps fuel valid_sep s).
Proof.
  revert s. induction fuel as [|fuel IH]; intros s Hlen.
  - destruct s; [constructor | cbn in Hlen; lia].
  - cbn [env_var_sub_steps]. destruct s as [|c s']; [constructor |].
    destruct (env_var_match (String c s')) as [[[group1 sep] rest]|] eqn:E.
    + apply env_var_match_Some in E. destruct E as [Hs Hsep].
      rewrite Hs. apply colons_to_semicolons_app. unfold valid_sep. cbn [append].
      assert (Hrest : String.length rest <= fuel).
      { rewrite Hs, length_append in Hlen. cbn in Hlen. lia. }
      destruct Hsep as [-> | ->]; constructor; now apply IH.
    + constructor. apply IH. cbn in Hlen. lia.
Qed.

(** A text with no dollar sign is left as it is. *)
Lemma env_var_sub_steps_no_dollar fuel sep s :
  has_char dollar s = false -> env_var_sub_steps fuel sep s = s.
Proof.
  revert s. induction fuel as [|fuel IH]; intros s Hs; [reflexivity |].
  cbn [env_var_sub_steps]. destruct s as [|c s']; [reflexivity |].
  cbn [has_char] in Hs. apply orb_false_iff in Hs. destruct Hs as [Hc Hs].
  rewrite env_var_match_no_dollar.
  - f_equal. now apply IH.
  - intros ->. discriminate Hc.
Qed.

(** *** No variable is left with a colon after it *)

Lemma scan_to_brace_body s body after :
  scan_to_brace s = Some (body, after) -> has_char close_brace body = false.
Proof.
  revert body. induction s as [|c s IH]; intros body H; [discriminate |].
  cbn [scan_to_brace] in H. destruct (Ascii.eqb c close_brace) eqn:Hc.
  - now inversion H.
  - destruct (scan_to_brace s) as [[b a]|]; [| discriminate].
    inversion H; subst. cbn [has_char]. rewrite Hc. now apply IH.
Qed.

Lemma scan_to_brace_app body after :
  has_char close_brace body = false ->
  scan_to_brace (body ++ String close_brace after) = Some (body, after).
Proof.
  induction body as [|c body IH]; intros H.
  - cbn. now rewrite Ascii.eqb_refl.
  - cbn [has_char] in H. apply orb_false_iff in H. destruct H as [Hc H].
    cbn [append scan_to_brace]. now rewrite Hc, IH.
Qed.

(** Group 1 of a match is a dollar sign, a brace, a name without closing
    brace, and a closing brace. *)
Lemma env_var_match_group1 s group1 sep rest :
  env_var_match s = Some (group1, sep, rest) ->
  exists var,
    group1 = String dollar (String open_brace var)
             ++ String close_brace EmptyString /\
    has_char close_brace var = false.
Proof.
  unfold env_var_match. destruct s as [|c0 [|c1 t]]; try discriminate.
  destruct (Ascii.eqb c0 dollar && Ascii.eqb c1 open_brace); [| discriminate].
  destruct (scan_to_brace t) as [[[|b body] [|x after]]|] eqn:E; try discriminate.
  apply scan_to_brace_body in E.
  destruct (Ascii.eqb x colon || Ascii.eqb x semicolon); [| discriminate].
  intros H. inversion H; subst. now exists (String b body).
Qed.

(** A variable followed by a colon or a semicolon is a match. *)
Lemma env_var_match_variable var sep post :
  var <> EmptyString -> has_char close_brace var = false ->
  sep = colon \/ sep = semicolon ->
  env_var_match (String dollar (String open_brace var)
                 ++ String close_brace (String sep post))
  = Some (String dollar (String open_brace var)
          ++ String close_brace EmptyString, sep, post).
Proof.
  intros Hne Hvar Hsep. cbn [append env_var_match].
  rewrite !Ascii.eqb_refl. cbn [andb]. rewrite scan_to_brace_app by assumption.
  destruct var as [|b var]; [congruence |].
  destruct Hsep as [-> | ->]; reflexivity.
Qed.

Lemma scan_to_brace_colons t t' body' after' :
  colons_to_semicolons t t' ->
  scan_to_brace t' = Some (body', after') ->
  exists body after,
    scan_to_brace t = Some (body, after) /\
    colons_to_semicolons body body' /\ colons_to_semicolons after after'.
Proof.
  intros H. revert body' after'.
  induction H as [| c t t' Ht IH | t t' Ht IH]; intros body' after' E.
  - discriminate.
  - cbn [scan_to_brace] in *. destruct (Ascii.eqb c close_brace).
    + inversion E; subst. exists EmptyString, t.
      split; [reflexivity |]. split; [apply cts_end | exact Ht].
    + destruct (scan_to_brace t') as [[b a]|]; [| discriminate].
      inversion E; subst.
      destruct (IH _ _ eq_refl) as [body [after [-> [Hb Ha]]]].
      exists (String c body), after.
      split; [reflexivity |]. split; [now apply cts_same | exact Ha].
  - cbn [scan_to_brace] in *.
    change (Ascii.eqb semicolon close_brace) with false in E.
    change (Ascii.eqb colon close_brace) with false.
    cbv iota in *.
    destruct (scan_to_brace t') as [[b a]|]; [| discriminate].
    inversion E; subst.
    destruct (IH _ _ eq_refl) as [body [after [-> [Hb Ha]]]].
    exists (String colon body), after.
    split; [reflexivity |]. split; [now apply cts_changed | exact Ha].
Qed.

(** Turning colons into semicolons creates no match. *)
Lemma env_var_match_colons s out :
  colons_to_semicolons s out ->
  env_var_match s = None -> env_var_match out = None.
Proof.
  intros H Hs. destruct (env_var_match out) as [[[g sep] r]|] eqn:E;
    [exfalso | reflexivity].
  unfold env_var_match in E, Hs.
  destruct out as [|o0 [|o1 t']]; try discriminate.
  destruct (Ascii.eqb_spec o0 dollar) as [->|]; [| discriminate].
  destruct (Ascii.eqb_spec o1 open_brace) as [->|]; [| discriminate].
  cbn [andb] in E.
  inversion H as [| c0 s0 out0 H0 | s0 out0 H0]; subst.
  inversion H0 as [| c1 s1 out1 H1 | s1 out1 H1]; subst.
  rewrite !Ascii.eqb_refl in Hs. cbn [andb] in Hs.
  destruct (scan_to_brace t') as [[[|b' body'] [|x' after']]|] eqn:E';
    try discriminate.
  destruct (scan_to_brace_colons _ _ _ _ H1 E') as [body [after [Es [Hb Ha]]]].
  rewrite Es in Hs.
  inversion Hb; subst; inversion Ha; subst.
  - destruct (Ascii.eqb x' colon || Ascii.eqb x' semicolon); discriminate.
  - discriminate Hs.
  - destruct (Ascii.eqb x' colon || Ascii.eqb x' semicolon); discriminate.
  - discriminate Hs.
Qed.

Lemma append_eq_append (a b pre suf : string) :
  a ++ b = pre ++ suf ->
  (exists m, pre = a ++ m /\ b = m ++ suf) \/
  (exists m, a = pre ++ m /\ suf = m ++ b).
Proof.
  revert pre. induction a as [|c a IH]; intros pre H.
  - left. now exists pre.
  - destruct pre as [|d pre].
    + right. now exists (String c a).
    + cbn [append] in H. inversion H; subst.
      destruct (IH _ H2) as [[m [-> ->]] | [m [-> ->]]].
      * left. now exists m.
      * right. now exists m.
Qed.

(** Where a name without closing brace is followed by a closing brace and a
    semicolon, a match has the semicolon for group 2. *)
Lemma env_var_match_before_semicolon w tail group1 sep rest :
  has_char close_brace w = false ->
  env_var_match (w ++ String close_brace (String semicolon tail))
  = Some (group1, sep, rest) ->
  sep = semicolon.
Proof.
  intros Hw. unfold env_var_match.
  destruct w as [|c0 [|c1 w]]; cbn [append].
  - discriminate.
  - destruct (Ascii.eqb c0 dollar); discriminate.
  - destruct (Ascii.eqb c0 dollar && Ascii.eqb c1 open_brace); [| discriminate].
    cbn [has_char] in Hw. apply orb_false_iff in Hw. destruct Hw as [_ Hw].
    apply orb_false_iff in Hw. destruct Hw as [_ Hw].
    rewrite scan_to_brace_app by assumption.
    destruct w; [discriminate |]. cbn. intros H. now inversion H.
Qed.

(** After the substitution with [";"], no place of the text is a match with
    a colon for group 2. *)
Lemma env_var_sub_steps_no_colon_match fuel s pre suf group1 rest :
  String.length s <= fuel ->
  env_var_sub_steps fuel valid_sep s = pre ++ suf ->
  env_var_match suf <> Some (group1, colon, rest).
Proof.
  revert s pre suf. induction fuel as [|fuel IH]; intros s pre suf Hlen Hsplit.
  - destruct s; [| cbn in Hlen; lia]. cbn in Hsplit.
    destruct pre, suf; (discriminate Hsplit || discriminate).
  - cbn [env_var_sub_steps] in Hsplit. destruct s as [|c s'].
    { destruct pre, suf; (discriminate Hsplit || discriminate). }
    destruct (env_var_match (String c s')) as [[[g sep] r]|] eqn:E.
    + pose proof (env_var_match_group1 _ _ _ _ E) as [var [Hg Hvar]].
      apply env_var_match_Some in E. destruct E as [Hs _].
      assert (Hr : String.length r <= fuel).
      { rewrite Hs, length_append in Hlen. cbn in Hlen. lia. }
      apply append_eq_append in Hsplit.
      destruct Hsplit as [[m [Hpre Hm]] | [m [Hgm Hsuf]]].
      * unfold valid_sep in Hm. cbn [append] in Hm.
        destruct m as [|x m]; cbn [append] in Hm.
        -- subst suf. rewrite env_var_match_no_dollar by discriminate.
           discriminate.
        -- inversion Hm; subst. eapply IH; [exact Hr | eassumption].
      * subst suf. unfold valid_sep. cbn [append].
        destruct m as [|x m].
        { cbn [append]. rewrite env_var_match_no_dollar by discriminate.
          discriminate. }
        assert (Hw : exists w, String x m = w ++ String close_brace EmptyString /\
                               has_char close_brace w = false).
        { rewrite Hg in Hgm.
          apply append_eq_append in Hgm.
          destruct Hgm as [[m' [Hp Hb]] | [m' [Hu Hm']]].
          - destruct m' as [|y m']; cbn [append] in Hb.
            + exists EmptyString. now rewrite <- Hb.
            + inversion Hb. destruct m'; discriminate.
          - exists m'. split; [exact Hm' |].
            assert (Hu' : has_char close_brace
                            (String dollar (String open_brace var)) = false)
              by (cbn [has_char]; now rewrite Hvar).
            rewrite Hu, has_char_append in Hu'.
            now apply orb_false_iff in Hu'. }
        destruct Hw as [w [Hxm Hw]]. rewrite Hxm, append_assoc. cbn [append].
        intros Hmatch.
        apply env_var_match_before_semicolon in Hmatch; [| assumption].
        discriminate Hmatch.
    + destruct pre as [|d pre]; cbn [append] in Hsplit.
      * subst suf.
        erewrite env_var_match_colons; [discriminate | | exact E].
        constructor. apply env_var_sub_steps_colons. cbn in Hlen. lia.
      * inversion Hsplit; subst. eapply IH; [| eassumption]. cbn in Hlen. lia.
Qed.

(** *** What [normalize_path] returns and logs *)

Section Properties.
Variable pconfig : PathConfig.
Variable convert_path : string -> string -> bool -> string.
Variables (path mode : string).

(** [config.env_var_separators] has no say in the result: with any other
    dictionary of separators [normalize_path] returns the same path. *)
Theorem env_var_separators_ignored (other : string -> option string) :
  snd (normalize_path pconfig convert_path path mode)
  = snd (normalize_path
           {| config := config pconfig;
              shell_pathed_env_vars := shell_pathed_env_vars pconfig;
              env_var_separators := other |}
           convert_path path mode).
Proof.
  unfold normalize_path. cbn [config shell_pathed_env_vars env_var_separators].
  destruct (disable_normalization (config pconfig)); [reflexivity |].
  destruct (shell_pathed_env_vars pconfig name) as [[|var vars]|];
    cbn [list_truthy]; try reflexivity.
  pose proof (separator_loop_semicolon (env_var_separators pconfig)
                (List.length (var :: vars)) 0 (var :: vars) None) as H1.
  pose proof (separator_loop_semicolon other
                (List.length (var :: vars)) 0 (var :: vars) None) as H2.
  destruct (separator_loop (env_var_separators pconfig) _ _ _ _) as [ev1 sep1].
  destruct (separator_loop other _ _ _ _) as [ev2 sep2].
  cbn [snd] in H1, H2. rewrite H1, H2 by (congruence || reflexivity).
  reflexivity.
Qed.

(** [convert_path] is handed the path with at most some colons turned into
    semicolons, and the path itself when it holds no dollar sign; it is
    called in the given mode with [force_fwdslash=True]. *)
Theorem convert_path_gets_semicolons :
  disable_normalization (config pconfig) = false ->
  exists path',
    snd (normalize_path pconfig convert_path path mode)
    = convert_path path' mode true /\
    colons_to_semicolons path path' /\
    (has_char dollar path = false -> path' = path).
Proof.
  intros Hd. unfold normalize_path. rewrite Hd.
  destruct (list_truthy (shell_pathed_env_vars pconfig name)) eqn:Hl.
  - destruct (shell_pathed_env_vars pconfig name) as [[|var vars]|];
      try discriminate Hl.
    pose proof (separator_loop_semicolon (env_var_separators pconfig)
                  (List.length (var :: vars)) 0 (var :: vars) None) as H1.
    destruct (separator_loop _ _ _ _ _) as [ev1 sep1].
    cbn [snd] in H1. rewrite H1 by (congruence || reflexivity).
    cbn [truthy valid_sep str_of snd].
    exists (env_var_sub valid_sep path). split; [reflexivity |]. split.
    + now apply env_var_sub_steps_colons.
    + apply env_var_sub_steps_no_dollar.
  - cbn [truthy snd]. exists path.
    split; [reflexivity |]. split; [apply colons_to_semicolons_refl | trivial].
Qed.

(** With variables listed for gitbash, no variable reference is followed
    by a colon in the path [convert_path] is handed. *)
Theorem no_colon_after_variable :
  disable_normalization (config pconfig) = false ->
  list_truthy (shell_pathed_env_vars pconfig name) = true ->
  exists path',
    snd (normalize_path pconfig convert_path path mode)
    = convert_path path' mode true /\
    forall pre var post,
      var <> EmptyString -> has_char close_brace var = false ->
      path' <> pre ++ "${" ++ var ++ "}:" ++ post.
Proof.
  intros Hd Hl. unfold normalize_path. rewrite Hd, Hl.
  destruct (shell_pathed_env_vars pconfig name) as [[|v vars]|];
    try discriminate Hl.
  pose proof (separator_loop_semicolon (env_var_separators pconfig)
                (List.length (v :: vars)) 0 (v :: vars) None) as H1.
  destruct (separator_loop _ _ _ _ _) as [ev1 sep1].
  cbn [snd] in H1. rewrite H1 by (congruence || reflexivity).
  cbn [truthy valid_sep str_of snd].
  exists (env_var_sub valid_sep path). split; [reflexivity |].
  intros pre var post Hne Hvar Heq.
  eapply (env_var_sub_steps_no_colon_match (String.length path) path pre);
    [reflexivity | exact Heq |].
  apply (env_var_match_variable var colon post Hne Hvar). now left.
Qed.

(** With variables listed for gitbash, the message that [PYTHONPATH] is
    missing is logged exactly when [PYTHONPATH] is not listed or has the
    separator [";"] already, and the message that its separator is
    overridden exactly when it is listed with another separator. *)
Theorem pythonpath_messages (vars : list string) :
  disable_normalization (config pconfig) = false ->
  shell_pathed_env_vars pconfig name = Some vars ->
  vars <> [] ->
  (In debug_pythonpath_missing
      (fst (normalize_path pconfig convert_path path mode)) <->
   ~ In "PYTHONPATH" vars \/
   env_var_separators pconfig "PYTHONPATH" = Some valid_sep) /\
  (In debug_separator_overridden
      (fst (normalize_path pconfig convert_path path mode)) <->
   In "PYTHONPATH" vars /\
   env_var_separators pconfig "PYTHONPATH" <> Some valid_sep).
Proof.
  intros Hd Hvars Hne. unfold normalize_path. rewrite Hd, Hvars.
  destruct vars as [|var vars]; [congruence |]. cbn [list_truthy].
  pose proof (separator_loop_semicolon (env_var_separators pconfig)
                (List.length (var :: vars)) 0 (var :: vars) None Hne eq_refl)
    as Hsep.
  pose proof (separator_loop_events (env_var_separators pconfig)
                (List.length (var :: vars)) 0 (var :: vars) None Hne eq_refl)
    as Hev.
  destruct (separator_loop _ _ _ _ _) as [ev1 sep1].
  cbn [fst snd] in Hsep, Hev. subst sep1. cbn [truthy valid_sep str_of fst].
  assert (Hlisted : existsb (String.eqb "PYTHONPATH") (var :: vars) = true <->
                    In "PYTHONPATH" (var :: vars)).
  { rewrite existsb_exists. split.
    - intros [x [Hx Heq]]. apply String.eqb_eq in Heq. now subst.
    - intros H. exists "PYTHONPATH". split; [exact H | apply String.eqb_refl]. }
  pose proof (differs_Some (env_var_separators pconfig "PYTHONPATH") valid_sep)
    as Hdiff.
  match goal with
  | |- context [ (ev1 ++ ?tail)%list ] =>
      assert (Hrest : forall e,
                (e = debug_pythonpath_missing \/ e = debug_separator_overridden) ->
                In e (ev1 ++ tail)%list <-> In e ev1)
  end.
  { intros e He. rewrite !in_app_iff. split; [| auto].
    intros [H | [H | H]]; [exact H | |].
    - destruct H as [H | [H | []]]; destruct He; congruence.
    - destruct (negb _); [| destruct H].
      destruct H as [H | [H | []]]; destruct He; congruence. }
  rewrite !Hrest by auto. rewrite Hev. clear Hrest Hev.
  set (b := existsb (String.eqb "PYTHONPATH") (var :: vars) &&
            differs (env_var_separators pconfig "PYTHONPATH") (Some valid_sep)).
  assert (Hb : b = true <->
               In "PYTHONPATH" (var :: vars) /\
               env_var_separators pconfig "PYTHONPATH" <> Some valid_sep).
  { unfold b. now rewrite andb_true_iff, Hlisted, Hdiff. }
  destruct b eqn:Eb.
  - pose proof (proj1 Hb eq_refl) as [Hin Hsep'].
    split; split.
    + intros [H | []]. discriminate H.
    + intros [H | H]; [now destruct (H Hin) | now destruct (Hsep' H)].
    + intros _. now split.
    + intros _. now left.
  - split; split.
    + intros _. unfold b in Eb. apply andb_false_iff in Eb.
      destruct Eb as [El | Ed].
      * left. intros Hin. apply Hlisted in Hin. congruence.
      * right. destruct (env_var_separators pconfig "PYTHONPATH") as [x|];
          [| discriminate Ed].
        cbn in Ed. apply negb_false_iff, String.eqb_eq in Ed. now subst.
    + intros _. now left.
    + intros [H | []]. discriminate H.
    + intros H. apply Hb in H. discriminate H.
Qed.

(** With no variables listed for gitbash (no entry, or an empty list), an
    error is logged first and [convert_path] gets the path as it is, also
    when it holds variables followed by a colon. *)
Theorem unlisted_shell_keeps_separators :
  disable_normalization (config pconfig) = false ->
  list_truthy (shell_pathed_env_vars pconfig name) = false ->
  snd (normalize_path pconfig convert_path path mode)
  = convert_path path mode true /\
  exists rest,
    fst (normalize_path pconfig convert_path path mode)
    = error_improperly_configured :: rest /\
    (rest = [] <-> convert_path path mode true = path).
Proof.
  intros Hd Hl. unfold normalize_path. rewrite Hd, Hl. cbn [truthy fst snd].
  split; [reflexivity |].
  destruct (String.eqb_spec path (convert_path path mode true)) as [Heq|Hne];
    cbn [negb app]; eexists; (split; [reflexivity |]).
  - split; [intros _; now symmetry | reflexivity].
  - split; [discriminate | intros H; congruence].
Qed.

End Properties.

Lemma convert_path_gets_semicolons_witness :
  exists path',
    snd (normalize_path pconfig_colon slashes_only "${ROOT}:${HOME}/lib" "unix")
    = slashes_only path' "unix" true /\
    colons_to_semicolons "${ROOT}:${HOME}/lib" path' /\
    (has_char dollar "${ROOT}:${HOME}/lib" = false ->
     path' = "${ROOT}:${HOME}/lib").
Proof.
  exact (convert_path_gets_semicolons pconfig_colon slashes_only
           "${ROOT}:${HOME}/lib" "unix" eq_refl).
Defined.

Lemma no_colon_after_variable_witness :
  exists path',
    snd (normalize_path pconfig_colon slashes_only "${ROOT}:${HOME}:lib" "unix")
    = slashes_only path' "unix" true /\
    forall pre var post,
      var <> EmptyString -> has_char close_brace var = false ->
      path' <> pre ++ "${" ++ var ++ "}:" ++ post.
Proof.
  exact (no_colon_after_variable pconfig_colon slashes_only
           "${ROOT}:${HOME}:lib" "unix" eq_refl eq_refl).
Defined.

Lemma pythonpath_messages_witness :
  In debug_pythonpath_missing
    (fst (normalize_path pconfig_semicolon slashes_only "${ROOT}:lib" "unix")) /\
  In debug_separator_overridden
    (fst (normalize_path pconfig_colon slashes_only "${ROOT}:lib" "unix")).
Proof.
  assert (Hne : ["CMAKE_MODULE_PATH"; "PYTHONPATH"] <> @nil string)
    by discriminate.
  split.
  - apply (proj1 (pythonpath_messages pconfig_semicolon slashes_only
                    "${ROOT}:lib" "unix" _ eq_refl eq_refl Hne)).
    right. reflexivity.
  - apply (proj2 (pythonpath_messages pconfig_colon slashes_only
                    "${ROOT}:lib" "unix" _ eq_refl eq_refl Hne)).
    split; [right; left; reflexivity | discriminate].
Defined.

Lemma unlisted_shell_keeps_separators_witness :
  snd (normalize_path pconfig_unlisted slashes_only "${ROOT}:lib" "unix")
  = slashes_only "${ROOT}:lib" "unix" true /\
  exists rest,
    fst (normalize_path pconfig_unlisted slashes_only "${ROOT}:lib" "unix")
    = error_improperly_configured :: rest /\
    (rest = [] <-> slashes_only "${ROOT}:lib" "unix" true = "${ROOT}:lib").
Proof.
  exact (unlisted_shell_keeps_separators pconfig_unlisted slashes_only
           "${ROOT}:lib" "unix" eq_refl eq_refl).
Defined.

End NormalizePath.

(** ** [GitBash.get_syspaths] *)

Module GetSyspaths.
Import PyStr GitBash FindExecutable NormalizePaths NormalizePath.

(** *** The [str] methods the method calls *)

Definition newline : ascii := ascii_of_nat 10.

(** [str.isspace] on one character with a code below 256. *)
Definition is_space (c : ascii) : bool :=
  let n := nat_of_ascii c in
  ((9 <=? n) && (n <=? 13) || (28 <=? n) && (n <=? 32) ||
   (n =? 133) || (n =? 160))%nat.

Fixpoint has_space (s : string) : bool :=
  match s with
  | EmptyString => false
  | String c s' => is_space c || has_space s'
  end.

(** [s.split(sep)] for a one-character [sep], [cur] being the piece read
    so far. *)
Fixpoint split_on_from (sep : ascii) (cur s : string) : list string :=
  match s with
  | EmptyString => [cur]
  | String c s' =>
      if Ascii.eqb c sep then cur :: split_on_from sep EmptyString s'
      else split_on_from sep (cur ++ String c EmptyString) s'
  end.

Definition split_on (sep : ascii) (s : string) : list string :=
  split_on_from sep EmptyString s.

(** [s.split()]: the words between runs of whitespace, [cur] being the
    word read so far. *)
Fixpoint split_words_from (cur s : string) : list string :=
  match s with
  | EmptyString =>
      match cur with
      | EmptyString => []
      | _ => [cur]
      end
  | String c s' =>
      if is_space c then
        match cur with
        | EmptyString => split_words_from EmptyString s'
        | _ => cur :: split_words_from EmptyString s'
        end
      else split_words_from (cur ++ String c EmptyString) s'
  end.

Definition split_words (s : string) : list string :=
  split_words_from EmptyString s.

(** [s.strip()]. *)
Fixpoint lstrip (s : string) : string :=
  match s with
  | EmptyString => EmptyString
  | String c s' => if is_space c then lstrip s' else s
  end.

Fixpoint rstrip (s : string) : string :=
  match s with
  | EmptyString => EmptyString
  | String c s' =>
      match rstrip s' with
      | EmptyString => if is_space c then EmptyString else String c EmptyString
      | r => String c r
      end
  end.

Definition strip (s : string) : string := rstrip (lstrip s).

(** [l[-1]], which fails on an empty list. *)
Fixpoint last_item {A} (l : list A) : option A :=
  match l with
  | [] => None
  | [x] => Some x
  | _ :: l' => last_item l'
  end.

(** *** The method *)

(** The word bash is told to echo before its [PATH]. *)
Definition marker : string := "__PATHS_".

(** What the method reads from outside the class. *)
Record Env := {
  (** [config.standard_system_paths] *)
  standard_system_paths : list string;
  (** [cls.executable_filepath()] *)
  executable_filepath : result string;
  (** [Popen([exepath, norc_arg, command_arg, 'echo __PATHS_ $PATH'])]:
      the return code and the standard output of the process *)
  run_bash : string -> Z * string;
  (** [get_syspaths_from_registry()] *)
  get_syspaths_from_registry : list string;
  (** [rez.util.dedup] *)
  dedup : list string -> list string
}.

(** Truth value of a [str]: [x] in [[x for x in paths if x]]. *)
Definition not_empty (x : string) : bool := negb (String.eqb x EmptyString).

Inductive outcome :=
| Paths (paths : list string)
| IndexError
| Failed (e : exn).

(** The bash paths read off the output of a successful run:
    [lines = out_.split('\n')], the first line with the marker among its
    words, and the last word of that line split at colons. *)
Definition paths_of_output (out_ : string) : option (list string) :=
  let lines := split_on newline out_ in
  match List.filter (fun x => existsb (String.eqb marker) (split_words x)) lines with
  | [] => None
  | line :: _ =>
      match last_item (split_words (strip line)) with
      | None => None
      | Some word => Some (split_on colon word)
      end
  end.

(** [get_syspaths], [syspaths] being the class attribute [cls.syspaths]
    ([None] until a call succeeds): the attribute after the call and what
    the call returns or raises. *)
Definition get_syspaths (env : Env) (syspaths : option (list string))
  : option (list string) * outcome :=
  match syspaths with
  | Some cached => (syspaths, Paths cached)
  | None =>
      match standard_system_paths env with
      | _ :: _ =>
          (Some (standard_system_paths env), Paths (standard_system_paths env))
      | [] =>
          match executable_filepath env with
          | Raise e => (None, Failed e)
          | Return exepath =>
              let '(returncode, out_) := run_bash env exepath in
              let found :=
                if Z.eqb returncode 0 then paths_of_output out_ else Some [] in
              match found with
              | None => (None, IndexError)
              | Some paths =>
                  let paths := (get_syspaths_from_registry env ++ paths)%list in
                  let paths := dedup env paths in
                  let paths := List.filter not_empty paths in
                  (Some paths, Paths paths)
              end
          end
      end
  end.

(** Sample environments: bash answers with two directories, with an empty
    [PATH], and with nothing. *)
Fixpoint keep_first_from (seen l : list string) : list string :=
  match l with
  | [] => []
  | x :: l' =>
      if in_dec string_dec x seen then keep_first_from seen l'
      else x :: keep_first_from (x :: seen) l'
  end.

Definition keep_first (l : list string) : list string := keep_first_from [] l.

Definition env_answering (out_ : string) : Env :=
  {| standard_system_paths := [];
     executable_filepath := Return "bash.exe";
     run_bash := fun _ => (0%Z, out_);
     get_syspaths_from_registry := ["/c/windows"; EmptyString];
     dedup := keep_first |}.

Definition env_failing : Env :=
  {| standard_system_paths := [];
     executable_filepath := Return "bash.exe";
     run_bash := fun _ => (1%Z, "bash: error");
     get_syspaths_from_registry := ["/c/windows"];
     dedup := keep_first |}.

(** *** Facts about splitting and stripping *)

Lemma has_space_app a b : has_space (a ++ b) = has_space a || has_space b.
Proof.
  induction a as [|d a IH]; [reflexivity |].
  cbn [append has_space]. now rewrite IH, orb_assoc.
Qed.

Lemma no_space_no_newline s : has_space s = false -> has_char newline s = false.
Proof.
  induction s as [|c s IH]; [reflexivity |].
  cbn [has_space has_char]. rewrite !orb_false_iff. intros [Hc Hs].
  split; [| now apply IH].
  destruct (Ascii.eqb_spec c newline) as [->|]; [discriminate Hc | reflexivity].
Qed.

Lemma append_cons_assoc (a : string) c (b : string) :
  (a ++ String c EmptyString) ++ b = a ++ String c b.
Proof. now rewrite append_assoc. Qed.

(** A piece without separator is read into the current piece. *)
Lemma split_on_from_app sep cur t s :
  has_char sep t = false ->
  split_on_from sep cur (t ++ s) = split_on_from sep (cur ++ t) s.
Proof.
  revert cur. induction t as [|c t IH]; intros cur Ht.
  - now rewrite append_nil_r.
  - cbn [has_char] in Ht. apply orb_false_iff in Ht. destruct Ht as [Hc Ht].
    cbn [append split_on_from]. rewrite Hc, IH by assumption.
    now rewrite append_cons_assoc.
Qed.

Lemma split_on_from_end sep cur t :
  has_char sep t = false -> split_on_from sep cur t = [cur ++ t].
Proof.
  intros Ht. rewrite <- (append_nil_r t) at 1.
  now rewrite split_on_from_app.
Qed.

(** Splitting at colons undoes joining with colons. *)
Lemma split_on_join (dirs : list string) :
  dirs <> [] ->
  forallb (fun d => negb (has_char colon d)) dirs = true ->
  split_on colon (join_paths dirs) = dirs.
Proof.
  unfold split_on, join_paths. destruct dirs as [|d dirs]; [congruence |].
  intros _. revert d. induction dirs as [|d' dirs IH]; intros d Hd;
    cbn [forallb] in Hd; apply andb_true_iff in Hd; destruct Hd as [Hd Hds];
    apply negb_true_iff in Hd.
  - cbn [String.concat]. now apply split_on_from_end.
  - cbn [String.concat]. rewrite split_on_from_app by assumption.
    cbn [append split_on_from]. rewrite Ascii.eqb_refl.
    f_equal. now apply IH.
Qed.

Lemma split_words_from_app cur t s :
  has_space t = false ->
  split_words_from cur (t ++ s) = split_words_from (cur ++ t) s.
Proof.
  revert cur. induction t as [|c t IH]; intros cur Ht.
  - now rewrite append_nil_r.
  - cbn [has_space] in Ht. apply orb_false_iff in Ht. destruct Ht as [Hc Ht].
    cbn [append split_words_from]. rewrite Hc, IH by assumption.
    now rewrite append_cons_assoc.
Qed.

Lemma split_words_word t :
  t <> EmptyString -> has_space t = false -> split_words t = [t].
Proof.
  intros Hne Ht. unfold split_words. rewrite <- (append_nil_r t) at 1.
  rewrite split_words_from_app by assumption. cbn.
  destruct t; [congruence | reflexivity].
Qed.

Lemma rstrip_word t :
  has_space t = false -> rstrip t = t.
Proof.
  induction t as [|c t IH]; [reflexivity |].
  cbn [has_space]. rewrite orb_false_iff. intros [Hc Ht].
  cbn [rstrip]. rewrite IH, Hc by assumption. now destruct t.
Qed.

Lemma rstrip_app a t :
  t <> EmptyString -> has_space t = false -> rstrip (a ++ t) = a ++ t.
Proof.
  intros Hne Ht. induction a as [|c a IH]; cbn [append].
  - now apply rstrip_word.
  - cbn [rstrip]. rewrite IH.
    destruct (a ++ t) eqn:E; [| reflexivity].
    destruct a; cbn in E; [congruence | discriminate].
Qed.

(** A piece or word that a split yields is a piece of the text. *)
Lemma split_on_from_In sep cur s x :
  In x (split_on_from sep cur s) ->
  exists pre post, cur ++ s = pre ++ x ++ post.
Proof.
  revert cur. induction s as [|c s IH]; intros cur; cbn [split_on_from].
  - intros [<- | []]. exists EmptyString, EmptyString.
    cbn [append]. now rewrite !append_nil_r.
  - destruct (Ascii.eqb c sep).
    + intros [<- | H].
      * now exists EmptyString, (String c s).
      * destruct (IH _ H) as [pre [post E]]. cbn [append] in E.
        exists (cur ++ String c pre), post.
        rewrite E, append_assoc. reflexivity.
    + intros H. destruct (IH _ H) as [pre [post E]].
      exists pre, post. now rewrite <- E, append_cons_assoc.
Qed.

Lemma split_words_from_In cur s x :
  In x (split_words_from cur s) ->
  exists pre post, cur ++ s = pre ++ x ++ post.
Proof.
  revert cur. induction s as [|c s IH]; intros cur; cbn [split_words_from].
  - destruct cur; [intros [] |]. intros [<- | []].
    exists EmptyString, EmptyString. cbn [append]. now rewrite !append_nil_r.
  - destruct (is_space c).
    + assert (Hrec : In x (split_words_from EmptyString s) ->
                     exists pre post, cur ++ String c s = pre ++ x ++ post).
      { intros H. destruct (IH _ H) as [pre [post E]]. cbn [append] in E.
        exists (cur ++ String c pre), post.
        rewrite E, append_assoc. reflexivity. }
      destruct cur as [|d cur]; [exact Hrec |].
      intros [<- | H]; [| now apply Hrec].
      now exists EmptyString, (String c s).
    + intros H. destruct (IH _ H) as [pre [post E]].
      exists pre, post. now rewrite <- E, append_cons_assoc.
Qed.

(** A text that holds the marker as a word of one of its lines holds the
    marker. *)
Lemma marker_line_contains out_ line :
  In line (split_on newline out_) ->
  existsb (String.eqb marker) (split_words line) = true ->
  contains marker out_ = true.
Proof.
  intros Hline Hword. apply existsb_exists in Hword.
  destruct Hword as [w [Hw Heq]]. apply String.eqb_eq in Heq. subst w.
  apply split_words_from_In in Hw. destruct Hw as [pre [post Hw]].
  apply split_on_from_In in Hline. destruct Hline as [pre' [post' Hl]].
  cbn [append] in Hw, Hl. apply contains_iff.
  exists (pre' ++ pre), (post ++ post').
  rewrite Hl, Hw, !append_assoc. reflexivity.
Qed.

(** *** What [get_syspaths] returns, raises and remembers *)

(** The first successful call fixes the answer: every later call returns
    the same list, whatever the configuration, bash or the registry have
    become.  A call that raises leaves [cls.syspaths] unset, so the next
    call starts afresh. *)
Theorem first_answer_is_kept (env : Env) (syspaths : option (list string)) :
  (forall syspaths' paths,
     get_syspaths env syspaths = (syspaths', Paths paths) ->
     forall env', get_syspaths env' syspaths' = (syspaths', Paths paths)) /\
  (forall syspaths',
     get_syspaths env None = (syspaths', IndexError) \/
     (exists e, get_syspaths env None = (syspaths', Failed e)) ->
     syspaths' = None).
Proof.
  split.
  - intros syspaths' paths H env'. unfold get_syspaths in H.
    destruct syspaths as [cached|].
    + inversion H; subst. reflexivity.
    + destruct (standard_system_paths env) as [|p ps].
      * destruct (executable_filepath env) as [exepath|e]; [| discriminate].
        destruct (run_bash env exepath) as [returncode out_].
        destruct (if Z.eqb returncode 0 then paths_of_output out_ else Some []);
          [| discriminate].
        inversion H; subst. reflexivity.
      * inversion H; subst. reflexivity.
  - intros syspaths' H. unfold get_syspaths in H.
    destruct (standard_system_paths env) as [|p ps].
    + destruct (executable_filepath env) as [exepath|e].
      * destruct (run_bash env exepath) as [returncode out_].
        destruct (if Z.eqb returncode 0 then paths_of_output out_ else Some []).
        -- destruct H as [H | [e H]]; discriminate H.
        -- destruct H as [H | [e H]]; now inversion H.
      * destruct H as [H | [e' H]]; now inversion H.
    + destruct H as [H | [e H]]; discriminate H.
Qed.

(** A list put together from the registry and bash holds no empty path,
    whatever [dedup] does. *)
Theorem no_empty_path (env : Env) syspaths' (paths : list string) :
  standard_system_paths env = [] ->
  get_syspaths env None = (syspaths', Paths paths) ->
  ~ In EmptyString paths.
Proof.
  intros Hstd H. unfold get_syspaths in H. rewrite Hstd in H.
  destruct (executable_filepath env) as [exepath|e]; [| discriminate].
  destruct (run_bash env exepath) as [returncode out_].
  destruct (if Z.eqb returncode 0 then paths_of_output out_ else Some []);
    [| discriminate].
  inversion H; subst. intros Hin. apply filter_In in Hin.
  destruct Hin as [_ Hin]. discriminate Hin.
Qed.

(** When bash exits with 0 and its output does not hold the marker, the
    call raises [IndexError] and remembers nothing. *)
Theorem no_marker_index_error (env : Env) (exepath out_ : string) :
  standard_system_paths env = [] ->
  executable_filepath env = Return exepath ->
  run_bash env exepath = (0%Z, out_) ->
  contains marker out_ = false ->
  get_syspaths env None = (None, IndexError).
Proof.
  intros Hstd Hexe Hrun Hno. unfold get_syspaths.
  rewrite Hstd, Hexe, Hrun. cbn [Z.eqb]. unfold paths_of_output.
  destruct (List.filter _ (split_on newline out_)) as [|line rest] eqn:E;
    [reflexivity |].
  assert (Hin : In line (List.filter
                  (fun x => existsb (String.eqb marker) (split_words x))
                  (split_on newline out_))) by (rewrite E; now left).
  apply filter_In in Hin. destruct Hin as [Hline Hword].
  rewrite (marker_line_contains out_ line Hline Hword) in Hno. discriminate.
Qed.

(** When bash echoes the marker and the colon-joined directories of its
    [PATH] on the first line, the call returns the registry paths followed
    by those directories, passed through [dedup] and freed of empty
    paths. *)
Theorem bash_paths_follow_registry (env : Env) (exepath rest : string)
    (dirs : list string) :
  standard_system_paths env = [] ->
  executable_filepath env = Return exepath ->
  run_bash env exepath
  = (0%Z, marker ++ " " ++ join_paths dirs ++ String newline rest) ->
  join_paths dirs <> EmptyString ->
  forallb (fun d => negb (has_space d) && negb (has_char colon d)) dirs = true ->
  snd (get_syspaths env None)
  = Paths (List.filter not_empty
             (dedup env (get_syspaths_from_registry env ++ dirs)%list)).
Proof.
  intros Hstd Hexe Hrun Hne Hdirs. unfold get_syspaths.
  rewrite Hstd, Hexe, Hrun. cbn [Z.eqb].
  assert (Hnonnil : dirs <> []) by (intros ->; now apply Hne).
  assert (Hcolon : forallb (fun d => negb (has_char colon d)) dirs = true).
  { rewrite forallb_forall in *. intros d Hd.
    specialize (Hdirs d Hd). now apply andb_true_iff in Hdirs. }
  assert (Hspace : has_space (join_paths dirs) = false).
  { unfold join_paths. clear -Hdirs. induction dirs as [|d dirs IH]; [reflexivity |].
    cbn [forallb] in Hdirs. apply andb_true_iff in Hdirs.
    destruct Hdirs as [Hd Hds]. apply andb_true_iff in Hd.
    destruct Hd as [Hd _]. apply negb_true_iff in Hd.
    cbn [String.concat]. destruct dirs as [|d' dirs]; [exact Hd |].
    rewrite !has_space_app, Hd, (IH Hds). reflexivity. }
  set (p := join_paths dirs) in *.
  assert (Hlines : split_on newline (marker ++ " " ++ p ++ String newline rest)
                   = (marker ++ " " ++ p) :: split_on newline rest).
  { unfold split_on.
    replace (marker ++ " " ++ p ++ String newline rest)
      with ((marker ++ " " ++ p) ++ String newline rest)
      by (now rewrite !append_assoc).
    rewrite split_on_from_app.
    - cbn [split_on_from append]. now rewrite Ascii.eqb_refl.
    - rewrite !has_char_append, (no_space_no_newline p Hspace). reflexivity. }
  assert (Hwords : split_words (marker ++ " " ++ p) = [marker; p]).
  { unfold split_words. rewrite split_words_from_app by reflexivity.
    cbn [append split_words_from is_space]. cbn.
    change (split_words_from EmptyString p) with (split_words p).
    now rewrite split_words_word. }
  assert (Hstrip : strip (marker ++ " " ++ p) = marker ++ " " ++ p).
  { unfold strip. cbn [marker append lstrip]. cbn.
    change (String "_" (String "_" (String "P" (String "A" (String "T"
             (String "H" (String "S" (String "_" (String " " p)))))))))
      with ("__PATHS_ " ++ p).
    now apply rstrip_app. }
  unfold paths_of_output. rewrite Hlines. cbn [List.filter].
  rewrite Hwords. cbn [existsb]. rewrite String.eqb_refl. cbn [orb].
  rewrite Hstrip, Hwords. cbn [last_item].
  unfold p. rewrite split_on_join by assumption. reflexivity.
Qed.

(** When bash echoes the marker alone (its [PATH] is empty), the marker
    itself is taken for the one bash path and joins the registry paths. *)
Theorem empty_path_yields_marker (env : Env) (exepath rest : string) :
  standard_system_paths env = [] ->
  executable_filepath env = Return exepath ->
  run_bash env exepath = (0%Z, marker ++ String newline rest) ->
  snd (get_syspaths env None)
  = Paths (List.filter not_empty
             (dedup env (get_syspaths_from_registry env ++ [marker])%list)).
Proof.
  intros Hstd Hexe Hrun. unfold get_syspaths.
  rewrite Hstd, Hexe, Hrun. cbn [Z.eqb].
  assert (Hlines : split_on newline (marker ++ String newline rest)
                   = marker :: split_on newline rest).
  { unfold split_on. rewrite split_on_from_app by reflexivity.
    cbn [split_on_from append]. now rewrite Ascii.eqb_refl. }
  unfold paths_of_output. rewrite Hlines. reflexivity.
Qed.

Lemma first_answer_is_kept_witness :
  get_syspaths env_failing
    (fst (get_syspaths (env_answering ("__PATHS_ /usr/bin:/bin" ++
                                       String newline EmptyString)) None))
  = (Some ["/c/windows"; "/usr/bin"; "/bin"],
     Paths ["/c/windows"; "/usr/bin"; "/bin"]).
Proof.
  exact (proj1 (first_answer_is_kept
                  (env_answering ("__PATHS_ /usr/bin:/bin" ++
                                  String newline EmptyString)) None)
           _ _ eq_refl env_failing).
Defined.

Lemma no_empty_path_witness :
  In EmptyString
    (get_syspaths_from_registry
       (env_answering ("__PATHS_ /usr/bin::/bin" ++ String newline EmptyString)))
  /\
  (In EmptyString ["/c/windows"; "/usr/bin"; "/bin"] -> False).
Proof.
  split; [right; left; reflexivity |].
  exact (no_empty_path
           (env_answering ("__PATHS_ /usr/bin::/bin" ++
                           String newline EmptyString))
           _ _ eq_refl eq_refl).
Defined.

Lemma no_marker_index_error_witness :
  get_syspaths (env_answering "bash: no such file") None = (None, IndexError).
Proof.
  exact (no_marker_index_error (env_answering "bash: no such file")
           "bash.exe" _ eq_refl eq_refl eq_refl eq_refl).
Defined.

Lemma bash_paths_follow_registry_witness :
  snd (get_syspaths
         (env_answering ("__PATHS_ /usr/bin:/bin:/c/windows" ++
                         String newline "done")) None)
  = Paths ["/c/windows"; "/usr/bin"; "/bin"].
Proof.
  assert (Hne : join_paths ["/usr/bin"; "/bin"; "/c/windows"] <> EmptyString)
    by discriminate.
  exact (bash_paths_follow_registry
           (env_answering ("__PATHS_ /usr/bin:/bin:/c/windows" ++
                           String newline "done"))
           "bash.exe" "done" ["/usr/bin"; "/bin"; "/c/windows"]
           eq_refl eq_refl eq_refl Hne eq_refl).
Defined.

Lemma empty_path_yields_marker_witness :
  snd (get_syspaths (env_answering ("__PATHS_" ++ String newline EmptyString))
         None)
  = Paths ["/c/windows"; "__PATHS_"].
Proof.
  exact (empty_path_yields_marker
           (env_answering ("__PATHS_" ++ String newline EmptyString))
           "bash.exe" EmptyString eq_refl eq_refl eq_refl).
Defined.

End GetSyspaths.

(** * Comparison functions that are total orders

    What the version order, the order of interval ends and the order used to
    sort intervals have in common. *)

Module Order.

Class Order {A : Type} (cmp : A -> A -> comparison) : Prop := {
  order_eq : forall a b, cmp a b = Eq <-> a = b;
  order_antisym : forall a b, cmp a b = CompOpp (cmp b a);
  order_trans : forall a b c, cmp a b = Lt -> cmp b c = Lt -> cmp a c = Lt
}.

(** Lexicographic combination of two comparison results. *)
Definition lex (c1 c2 : comparison) : comparison :=
  match c1 with
  | Eq => c2
  | _ => c1
  end.

Section Facts.
Context {A : Type} (cmp : A -> A -> comparison) `{!Order cmp}.

Definition lt (a b : A) : Prop := cmp a b = Lt.
Definition le (a b : A) : Prop := cmp a b <> Gt.

Lemma cmp_refl a : cmp a a = Eq.
Proof. now apply order_eq. Qed.

Lemma cmp_Gt_Lt a b : cmp a b = Gt <-> cmp b a = Lt.
Proof.
  rewrite (order_antisym a b). destruct (cmp b a); simpl; split; congruence.
Qed.

Lemma lt_irrefl a : ~ lt a a.
Proof. unfold lt. rewrite cmp_refl. discriminate. Qed.

Lemma lt_le a b : lt a b -> le a b.
Proof. unfold lt, le. congruence. Qed.

Lemma le_refl a : le a a.
Proof. unfold le. rewrite cmp_refl. discriminate. Qed.

Lemma le_cases a b : le a b <-> lt a b \/ a = b.
Proof.
  unfold le, lt. rewrite <- order_eq. destruct (cmp a b); split;
    try tauto; try congruence; intros [?|?]; congruence.
Qed.

Lemma not_lt_le a b : ~ lt a b <-> le b a.
Proof.
  unfold lt, le. rewrite cmp_Gt_Lt. tauto.
Qed.

Lemma not_le_lt a b : ~ le a b <-> lt b a.
Proof.
  unfold lt, le. rewrite <- cmp_Gt_Lt. destruct (cmp a b); split; intros H;
    try discriminate; try (exfalso; apply H; discriminate);
    try reflexivity; intros H'; now apply H'.
Qed.

Lemma lt_trans a b c : lt a b -> lt b c -> lt a c.
Proof. apply order_trans. Qed.

Lemma le_lt_trans a b c : le a b -> lt b c -> lt a c.
Proof.
  rewrite le_cases. intros [H| ->]; [now apply lt_trans | trivial].
Qed.

Lemma lt_le_trans a b c : lt a b -> le b c -> lt a c.
Proof.
  rewrite le_cases. intros H [H'| <-]; [now apply lt_trans with b | trivial].
Qed.

Lemma le_trans a b c : le a b -> le b c -> le a c.
Proof.
  rewrite (le_cases a b). intros [H| ->] H'; [| trivial].
  apply lt_le. now apply lt_le_trans with b.
Qed.

Lemma le_antisym a b : le a b -> le b a -> a = b.
Proof.
  rewrite (le_cases a b). intros [H| ->] H'; [| reflexivity].
  exfalso. apply (lt_irrefl a). now apply lt_le_trans with b.
Qed.

Lemma le_total a b : le a b \/ le b a.
Proof.
  unfold le. rewrite (order_antisym (cmp := cmp) b a).
  destruct (cmp a b); simpl;
    [left | left | right]; discriminate.
Qed.

Lemma lt_total a b : lt a b \/ a = b \/ lt b a.
Proof.
  unfold lt. rewrite <- (cmp_Gt_Lt a b), <- (order_eq (cmp := cmp) a b).
  destruct (cmp a b); auto.
Qed.

End Facts.

(** A comparison read through an injective key is an order again. *)
Lemma order_by_key {A B : Type} (cmp : A -> A -> comparison) `{!Order cmp}
    (key : B -> A) :
  (forall x y, key x = key y -> x = y) ->
  Order (fun x y => cmp (key x) (key y)).
Proof.
  intros Hinj. split.
  - intros x y. rewrite order_eq. split; [apply Hinj | now intros ->].
  - intros x y. apply order_antisym.
  - intros x y z. apply order_trans.
Qed.

(** The lexicographic order of pairs. *)
Definition pair_compare {A B : Type} (cmpA : A -> A -> comparison)
    (cmpB : B -> B -> comparison) (x y : A * B) : comparison :=
  lex (cmpA (fst x) (fst y)) (cmpB (snd x) (snd y)).

Lemma pair_order {A B : Type} (cmpA : A -> A -> comparison)
    (cmpB : B -> B -> comparison) `{!Order cmpA} `{!Order cmpB} :
  Order (pair_compare cmpA cmpB).
Proof.
  split.
  - intros [a1 b1] [a2 b2]. unfold pair_compare, lex. simpl.
    destruct (cmpA a1 a2) eqn:E.
    + apply order_eq in E. subst a2. rewrite order_eq.
      split; [now intros -> | intros H; now inversion H].
    + split; [discriminate | intros H; inversion H; subst].
      rewrite (cmp_refl cmpA) in E. discriminate.
    + split; [discriminate | intros H; inversion H; subst].
      rewrite (cmp_refl cmpA) in E. discriminate.
  - intros [a1 b1] [a2 b2]. unfold pair_compare, lex. simpl.
    rewrite (order_antisym (cmp := cmpA) a1 a2).
    destruct (cmpA a2 a1); simpl; [apply order_antisym | reflexivity | reflexivity].
  - intros [a1 b1] [a2 b2] [a3 b3]. unfold pair_compare, lex. simpl.
    destruct (cmpA a1 a2) eqn:E12; try discriminate;
      destruct (cmpA a2 a3) eqn:E23; try discriminate; intros H1 H2.
    + apply order_eq in E12, E23. subst. rewrite (cmp_refl cmpA).
      eapply order_trans; eassumption.
    + apply order_eq in E12. subst. now rewrite E23.
    + apply order_eq in E23. subst. now rewrite E12.
    + now rewrite (order_trans _ _ _ E12 E23).
Qed.

End Order.

(** * Part II: the version algebra (spec, sections 3 and 4.1)

    The resolution core is not among the plugin's sources; its data model
    and operations are taken from the specification. *)

Module Version.

(** Modelled from the spec: the Version data type, whose code is missing.
    A version is an ordered sequence of alphanumeric tokens; a token is
    numeric or alphabetic. *)
Inductive token :=
| Num (n : N)
| Alpha (s : string).

Abbreviation Version := (list token).

(** Modelled from the spec: the token comparison, whose code is missing.
    Numeric tokens compare numerically, alphabetic tokens lexically, and a
    numeric token is below an alphabetic one.  The result [Lt] is the
    spec's less, [Eq] its equal, [Gt] its greater. *)
Definition token_compare (a b : token) : comparison :=
  match a, b with
  | Num m, Num n => N.compare m n
  | Alpha s, Alpha t => String.compare s t
  | Num _, Alpha _ => Lt
  | Alpha _, Num _ => Gt
  end.

(** Modelled from the spec: [compare(v1, v2)], whose code is missing.
    Sequences compare token by token from the left; a sequence that ends
    first is below its extensions. *)
Fixpoint compare (v1 v2 : Version) : comparison :=
  match v1, v2 with
  | [], [] => Eq
  | [], _ :: _ => Lt
  | _ :: _, [] => Gt
  | a :: v1', b :: v2' =>
      match token_compare a b with
      | Eq => compare v1' v2'
      | c => c
      end
  end.

Definition ltb (v1 v2 : Version) : bool :=
  match compare v1 v2 with Lt => true | _ => false end.

Definition leb (v1 v2 : Version) : bool :=
  match compare v1 v2 with Gt => false | _ => true end.

(** ** Laws of the token order *)

Lemma token_compare_eq a b : token_compare a b = Eq <-> a = b.
Proof.
  destruct a as [m|s], b as [n|t]; simpl;
    try (split; [discriminate | intros H; discriminate H]).
  - rewrite N.compare_eq_iff. split; [intros ->; reflexivity | intros H; now inversion H].
  - split.
    + intros H. apply String.compare_eq_iff in H. now subst.
    + intros H. inversion H. now apply String_as_OT.cmp_eq.
Qed.

Lemma token_compare_antisym a b :
  token_compare a b = CompOpp (token_compare b a).
Proof.
  destruct a as [m|s], b as [n|t]; simpl; try reflexivity.
  - apply N.compare_antisym.
  - apply String.compare_antisym.
Qed.

Lemma token_compare_trans a b c :
  token_compare a b = Lt -> token_compare b c = Lt -> token_compare a c = Lt.
Proof.
  destruct a as [m|s], b as [n|t], c as [k|u]; simpl; try discriminate; try reflexivity.
  - rewrite !N.compare_lt_iff. lia.
  - intros H1 H2.
    apply String_as_OT.cmp_lt in H1. apply String_as_OT.cmp_lt in H2.
    apply String_as_OT.cmp_lt. eapply String_as_OT.lt_trans; eassumption.
Qed.

(** ** Laws of the version order *)

Lemma compare_refl v : compare v v = Eq.
Proof.
  induction v as [|a v IH]; simpl; [reflexivity |].
  now rewrite (proj2 (token_compare_eq a a) eq_refl).
Qed.

Lemma compare_eq v1 v2 : compare v1 v2 = Eq <-> v1 = v2.
Proof.
  split; [| intros ->; apply compare_refl].
  revert v2. induction v1 as [|a v1 IH]; intros [|b v2]; simpl; try discriminate.
  - reflexivity.
  - destruct (token_compare a b) eqn:E; try discriminate.
    intros H. apply token_compare_eq in E. subst b. f_equal. now apply IH.
Qed.

Lemma compare_antisym v1 v2 : compare v1 v2 = CompOpp (compare v2 v1).
Proof.
  revert v2. induction v1 as [|a v1 IH]; intros [|b v2]; simpl; try reflexivity.
  rewrite (token_compare_antisym b a).
  destruct (token_compare a b); simpl; [apply IH | reflexivity | reflexivity].
Qed.

Lemma compare_trans v1 v2 v3 :
  compare v1 v2 = Lt -> compare v2 v3 = Lt -> compare v1 v3 = Lt.
Proof.
  revert v2 v3. induction v1 as [|a v1 IH]; intros [|b v2] [|c v3]; simpl;
    try discriminate; try reflexivity.
  destruct (token_compare a b) eqn:Eab; try discriminate;
    destruct (token_compare b c) eqn:Ebc; try discriminate; intros H1 H2.
  - apply token_compare_eq in Eab, Ebc. subst.
    rewrite (proj2 (token_compare_eq c c) eq_refl). eapply IH; eassumption.
  - apply token_compare_eq in Eab. subst. now rewrite Ebc.
  - apply token_compare_eq in Ebc. subst. now rewrite Eab.
  - now rewrite (token_compare_trans _ _ _ Eab Ebc).
Qed.

#[global] Instance compare_order : Order.Order compare.
Proof. split; [exact compare_eq | exact compare_antisym | exact compare_trans]. Qed.

(** The version [w.0] comes right after [w]: the versions below [w.0] are
    those up to [w]. *)
Lemma ltb_succ v w : ltb v (w ++ [Num 0%N]) = leb v w.
Proof.
  unfold ltb, leb. revert w.
  induction v as [|a v IH]; intros [|b w]; simpl; try reflexivity.
  - destruct a as [n|s]; simpl; [| reflexivity].
    destruct n; simpl; [| reflexivity]. now destruct v.
  - destruct (token_compare a b); [apply IH | reflexivity | reflexivity].
Qed.

(** C3. [compare] is a strict total order on versions: of less, equal and
    greater exactly one holds for every pair (equal exactly for the same
    token sequence), less is irreflexive and transitive, and
    [compare v1 v2] is [compare v2 v1] inverted. *)
Theorem compare_strict_total_order :
  (forall v1 v2 : Version, compare v1 v2 = CompOpp (compare v2 v1)) /\
  (forall v1 v2 : Version,
     (compare v1 v2 = Lt /\ v1 <> v2 /\ compare v2 v1 = Gt) \/
     (compare v1 v2 = Eq /\ v1 = v2 /\ compare v2 v1 = Eq) \/
     (compare v1 v2 = Gt /\ v1 <> v2 /\ compare v2 v1 = Lt)) /\
  (forall v : Version, compare v v <> Lt) /\
  (forall v1 v2 v3 : Version,
     compare v1 v2 = Lt -> compare v2 v3 = Lt -> compare v1 v3 = Lt).
Proof.
  split; [exact compare_antisym |].
  split; [| split; [intros v; now rewrite compare_refl | exact compare_trans]].
  intros v1 v2. pose proof (compare_eq v1 v2) as He.
  pose proof (compare_antisym v2 v1) as Ha.
  destruct (compare v1 v2) eqn:E; simpl in Ha.
  - right; left. repeat split; [now apply He | exact Ha].
  - left. repeat split; [| exact Ha]. intros Heq. apply He in Heq. discriminate.
  - right; right. repeat split; [| exact Ha]. intros Heq. apply He in Heq. discriminate.
Qed.

End Version.

(** * Part III: the range algebra (spec, sections 3 and 4.1) *)

Module Range.
Import Version.

(** Modelled from the spec: one end of a Bound, whose code is missing.  An
    end is unbounded, or sits at a version which it includes or excludes. *)
Inductive limit :=
| Unbounded
| Inclusive (v : Version)
| Exclusive (v : Version).

(** Modelled from the spec: the Bound interval, whose code is missing: a
    lower and an upper end. *)
Record Bound := { lower : limit; upper : limit }.

(** Modelled from the spec: the VersionRange, whose code is missing: the
    list of its Bound intervals.  The range with no interval is the empty
    range, which no version satisfies. *)
Abbreviation VersionRange := (list Bound).

(** Modelled from the spec: [contains(range, version)], whose code is
    missing: membership in one of the intervals. *)
Definition above (l : limit) (v : Version) : bool :=
  match l with
  | Unbounded => true
  | Inclusive a => leb a v
  | Exclusive a => ltb a v
  end.

Definition below (u : limit) (v : Version) : bool :=
  match u with
  | Unbounded => true
  | Inclusive b => leb v b
  | Exclusive b => ltb v b
  end.

Definition bound_contains (b : Bound) (v : Version) : bool :=
  above (lower b) v && below (upper b) v.

Definition contains (r : VersionRange) (v : Version) : bool :=
  existsb (fun b => bound_contains b v) r.

(** Modelled from the spec: the unbounded any range and [is_any(range)],
    whose code is missing. *)
Definition any : VersionRange := [ {| lower := Unbounded; upper := Unbounded |} ].

Definition is_any (r : VersionRange) : bool :=
  match r with
  | [ {| lower := Unbounded; upper := Unbounded |} ] => true
  | _ => false
  end.

(** ** The one way of writing an interval *)

(** Modelled from the spec: the structural-canonical writing of a Bound,
    whose code is missing.  Equality of ranges is to be structural on a
    canonical form in which the same versions are written in one way.  The
    version [v.0] comes right after [v] (numeric tokens are the least ones
    and a sequence that ends first is below its extensions), so an end that
    includes [v] holds the versions of an end that excludes [v.0]; and no
    version is below the empty one.  The canonical writing is the half-open
    one: the lower end unbounded or inclusive, the upper end unbounded or
    exclusive, no end at the empty version. *)
Definition next (v : Version) : Version := v ++ [Num 0%N].

Definition half_open_lower (l : limit) : limit :=
  match l with
  | Unbounded => Unbounded
  | Inclusive [] => Unbounded
  | Inclusive v => Inclusive v
  | Exclusive v => Inclusive (next v)
  end.

Definition half_open_upper (u : limit) : limit :=
  match u with
  | Unbounded => Unbounded
  | Inclusive v => Exclusive (next v)
  | Exclusive v => Exclusive v
  end.

Definition half_open_form (b : Bound) : Bound :=
  {| lower := half_open_lower (lower b); upper := half_open_upper (upper b) |}.

Definition standard_lower (l : limit) : bool :=
  match l with
  | Unbounded => true
  | Inclusive (_ :: _) => true
  | _ => false
  end.

Definition standard_upper (u : limit) : bool :=
  match u with
  | Unbounded => true
  | Exclusive (_ :: _) => true
  | _ => false
  end.

Definition half_open (b : Bound) : bool :=
  standard_lower (lower b) && standard_upper (upper b).

(** The least version that the lower end of an interval admits.  An
    interval holds a version exactly when it holds this one. *)
Definition least (b : Bound) : Version :=
  match lower b with
  | Unbounded => []
  | Inclusive a => a
  | Exclusive a => next a
  end.

Definition inhabited (b : Bound) : bool := bound_contains b (least b).

(** ** Where an interval starts and ends *)

(** Modelled from the spec: the order of interval ends, whose code is
    missing.  An end cuts the line of versions just before a version or
    just after it; an unbounded end cuts it below or above every version.
    Ends are ordered by their cuts. *)
Inductive cut :=
| NegInf
| Before (v : Version)
| After (v : Version)
| PosInf.

Definition lower_cut (l : limit) : cut :=
  match l with
  | Unbounded => NegInf
  | Inclusive v => Before v
  | Exclusive v => After v
  end.

Definition upper_cut (u : limit) : cut :=
  match u with
  | Unbounded => PosInf
  | Inclusive v => After v
  | Exclusive v => Before v
  end.

Definition cut_compare (c1 c2 : cut) : comparison :=
  match c1, c2 with
  | NegInf, NegInf => Eq
  | NegInf, _ => Lt
  | _, NegInf => Gt
  | PosInf, PosInf => Eq
  | PosInf, _ => Gt
  | _, PosInf => Lt
  | Before v, Before w => compare v w
  | After v, After w => compare v w
  | Before v, After w => match compare v w with Gt => Gt | _ => Lt end
  | After v, Before w => match compare v w with Lt => Lt | _ => Gt end
  end.

Definition cut_ltb (c1 c2 : cut) : bool :=
  match cut_compare c1 c2 with Lt => true | _ => false end.

Definition cut_leb (c1 c2 : cut) : bool :=
  match cut_compare c1 c2 with Gt => false | _ => true end.

Local Notation "v <v w" := (Order.lt compare v w) (at level 70).
Local Notation "v <=v w" := (Order.le compare v w) (at level 70).
Local Notation "c <c d" := (Order.lt cut_compare c d) (at level 70).
Local Notation "c <=c d" := (Order.le cut_compare c d) (at level 70).

Definition start (b : Bound) : cut := lower_cut (lower b).
Definition finish (b : Bound) : cut := upper_cut (upper b).

(** An interval in half-open form holds a version exactly when it starts
    before it ends. *)
Definition nonempty (b : Bound) : bool := cut_ltb (start b) (finish b).

(** [b1] ends before [b2] starts, and they do not touch: between intervals
    in half-open form lies a version of neither. *)
Definition apart (b1 b2 : Bound) : bool := cut_ltb (finish b1) (start b2).

(** Every interval starts before it ends, and ends before the next one
    starts. *)
Fixpoint separated (r : VersionRange) : bool :=
  match r with
  | [] => true
  | b :: r' =>
      nonempty b &&
      match r' with
      | [] => true
      | b' :: _ => apart b b'
      end &&
      separated r'
  end.

(** Modelled from the spec: the invariant of a VersionRange, whose code is
    missing: every interval is written in the canonical way and holds a
    version, the bounds are sorted and non-overlapping, and no two adjacent
    bounds touch. *)
Definition canonical (r : VersionRange) : bool :=
  forallb half_open r && separated r.

(** ** Normalisation: rewrite, sort, then merge what overlaps or touches *)

(** Modelled from the spec: the canonical form of a list of bounds, whose
    code is missing.  Intervals that hold no version are dropped, the rest
    is written in half-open form and sorted by start (then by end), and an
    interval that overlaps or touches the one before it is merged into
    it. *)
Definition bound_compare (b1 b2 : Bound) : comparison :=
  Order.lex (cut_compare (start b1) (start b2))
            (cut_compare (finish b1) (finish b2)).

Definition bound_le (b1 b2 : Bound) : Prop := bound_compare b1 b2 <> Gt.

#[global] Instance bound_le_dec b1 b2 : Decision (bound_le b1 b2).
Proof.
  unfold bound_le. destruct (bound_compare b1 b2);
    [left; discriminate | left; discriminate | right; intros H; now apply H].
Defined.

Definition max_lower (l1 l2 : limit) : limit :=
  if cut_leb (lower_cut l1) (lower_cut l2) then l2 else l1.

Definition min_upper (u1 u2 : limit) : limit :=
  if cut_leb (upper_cut u1) (upper_cut u2) then u1 else u2.

Definition max_upper (u1 u2 : limit) : limit :=
  if cut_leb (upper_cut u1) (upper_cut u2) then u2 else u1.

Fixpoint merge_from (cur : Bound) (rest : list Bound) : list Bound :=
  match rest with
  | [] => [cur]
  | b :: rest' =>
      if apart cur b then cur :: merge_from b rest'
      else merge_from {| lower := lower cur;
                         upper := max_upper (upper cur) (upper b) |} rest'
  end.

Definition merge_touching (bs : list Bound) : list Bound :=
  match bs with
  | [] => []
  | b :: bs' => merge_from b bs'
  end.

Definition normalize (bs : list Bound) : VersionRange :=
  merge_touching
    (merge_sort bound_le (map half_open_form (List.filter inhabited bs))).

(** Modelled from the spec: the range operations, whose code is missing.
    A parsed range is built from the bounds its text lists; the
    intersection from the pairwise intersections of the bounds; the union
    from the bounds of both ranges.  Each result is normalised. *)
Definition of_bounds (bs : list Bound) : VersionRange := normalize bs.

Definition bound_intersect (b1 b2 : Bound) : Bound :=
  {| lower := max_lower (lower b1) (lower b2);
     upper := min_upper (upper b1) (upper b2) |}.

Definition pairwise (r1 r2 : VersionRange) : list Bound :=
  flat_map (fun b1 => map (bound_intersect b1) r2) r1.

Definition intersect (r1 r2 : VersionRange) : VersionRange :=
  normalize (pairwise r1 r2).

Definition union (r1 r2 : VersionRange) : VersionRange :=
  normalize (r1 ++ r2).

(** ** Auxiliary notions for the proofs, and sample ranges *)

(** Intervals sorted by where they start. *)
Definition start_le (b1 b2 : Bound) : Prop := start b1 <=c start b2.

(** Sample ranges over the versions 1, 2, 2.0, 3, 5 and 7. *)
Definition v1 : Version := [Num 1%N].
Definition v2 : Version := [Num 2%N].
Definition v2_0 : Version := [Num 2%N; Num 0%N].
Definition v3 : Version := [Num 3%N].
Definition v5 : Version := [Num 5%N].
Definition v7 : Version := [Num 7%N].

(** The versions from 1 up to but not 3, or from 5 up to but not 7. *)
Definition range_a : VersionRange :=
  [ {| lower := Inclusive v1; upper := Exclusive v3 |};
    {| lower := Inclusive v5; upper := Exclusive v7 |} ].

(** The versions above 2. *)
Definition range_b : VersionRange :=
  [ {| lower := Exclusive v2; upper := Unbounded |} ].

(** The versions from 1 to 2, written with an inclusive end at 2 and with
    an exclusive end at 2.0. *)
Definition up_to_2 : list Bound :=
  [ {| lower := Inclusive v1; upper := Inclusive v2 |} ].

Definition below_2_0 : list Bound :=
  [ {| lower := Inclusive v1; upper := Exclusive v2_0 |} ].

(** The versions from 1 up to but not 3, in one piece and in two. *)
Definition one_piece : list Bound :=
  [ {| lower := Inclusive v1; upper := Exclusive v3 |} ].

Definition two_pieces : list Bound :=
  [ {| lower := Inclusive v2; upper := Exclusive v3 |};
    {| lower := Inclusive v1; upper := Exclusive v2 |} ].

(** ** The order of cuts *)

Lemma ltb_lt v w : ltb v w = true <-> v <v w.
Proof.
  unfold ltb, Order.lt. destruct (compare v w); split; congruence.
Qed.

Lemma leb_le v w : leb v w = true <-> v <=v w.
Proof.
  unfold leb, Order.le. destruct (compare v w); split; congruence.
Qed.

Lemma before_before v w : Before v <c Before w <-> v <v w.
Proof. reflexivity. Qed.

Lemma after_after v w : After v <c After w <-> v <v w.
Proof. reflexivity. Qed.

Lemma before_after v w : Before v <c After w <-> v <=v w.
Proof.
  unfold Order.lt, Order.le. simpl. destruct (compare v w); split; congruence.
Qed.

Lemma after_before v w : After v <c Before w <-> v <v w.
Proof.
  unfold Order.lt. simpl. destruct (compare v w); split; congruence.
Qed.

#[global] Instance cut_order : Order.Order cut_compare.
Proof.
  split.
  - intros [|v|v|] [|w|w|]; simpl;
      try (split; [discriminate | intros H; discriminate H]);
      try (split; reflexivity).
    + rewrite (Order.order_eq (cmp := compare)).
      split; [now intros -> | intros H; now inversion H].
    + destruct (compare v w); split; discriminate.
    + destruct (compare v w); split; discriminate.
    + rewrite (Order.order_eq (cmp := compare)).
      split; [now intros -> | intros H; now inversion H].
  - intros [|v|v|] [|w|w|]; simpl; try reflexivity;
      rewrite (Order.order_antisym (cmp := compare) v w);
      destruct (compare w v); reflexivity.
  - intros [|v|v|] [|w|w|] [|u|u|];
      try (simpl; discriminate); try (simpl; reflexivity);
      change (cut_compare ?a ?b = Lt) with (a <c b);
      rewrite ?before_before, ?after_after, ?before_after, ?after_before;
      intros H1 H2;
      pose proof (Order.lt_trans compare) as T1;
      pose proof (Order.le_lt_trans compare) as T2;
      pose proof (Order.lt_le_trans compare) as T3;
      pose proof (Order.lt_le compare) as T4;
      eauto.
Qed.

Lemma cut_ltb_lt c d : cut_ltb c d = true <-> c <c d.
Proof.
  unfold cut_ltb, Order.lt. destruct (cut_compare c d); split; congruence.
Qed.

Lemma cut_leb_le c d : cut_leb c d = true <-> c <=c d.
Proof.
  unfold cut_leb, Order.le. destruct (cut_compare c d); split; congruence.
Qed.

Lemma cut_ltb_ge c d : cut_ltb c d = false <-> d <=c c.
Proof.
  rewrite <- (Order.not_lt_le cut_compare), <- cut_ltb_lt.
  destruct (cut_ltb c d); split; congruence.
Qed.

Lemma cut_leb_gt c d : cut_leb c d = false <-> d <c c.
Proof.
  rewrite <- (Order.not_le_lt cut_compare), <- cut_leb_le.
  destruct (cut_leb c d); split; congruence.
Qed.

Lemma lower_cut_inj l1 l2 : lower_cut l1 = lower_cut l2 -> l1 = l2.
Proof. destruct l1, l2; simpl; congruence. Qed.

Lemma upper_cut_inj u1 u2 : upper_cut u1 = upper_cut u2 -> u1 = u2.
Proof. destruct u1, u2; simpl; congruence. Qed.

(** Nothing lies between the cut before a version and the cut after it. *)
Lemma lt_after_le_before c v : c <c After v <-> c <=c Before v.
Proof.
  destruct c as [|w|w|].
  - split; intros _; [discriminate | reflexivity].
  - rewrite before_after. unfold Order.le. simpl. reflexivity.
  - rewrite after_after, (Order.le_cases cut_compare), after_before.
    split; [auto | intros [H|H]; [exact H | discriminate H]].
  - split; [discriminate | intros H; exfalso; now apply H].
Qed.

Lemma before_lt_after v : Before v <c After v.
Proof. apply before_after, Order.le_refl, _. Qed.

(** ** Membership, read on cuts *)

Lemma contains_any v : contains any v = true.
Proof. reflexivity. Qed.

Lemma is_any_iff r : is_any r = true <-> r = any.
Proof.
  unfold is_any, any. split; [| now intros ->].
  destruct r as [|[[|a|a] [|b|b]] [|b' r]]; try discriminate. reflexivity.
Qed.

Lemma above_iff l v : above l v = true <-> lower_cut l <c After v.
Proof.
  destruct l as [|a|a]; simpl.
  - split; reflexivity.
  - now rewrite leb_le, before_after.
  - now rewrite ltb_lt, after_after.
Qed.

Lemma below_iff u v : below u v = true <-> Before v <c upper_cut u.
Proof.
  destruct u as [|b|b]; simpl.
  - split; reflexivity.
  - now rewrite leb_le, before_after.
  - now rewrite ltb_lt, before_before.
Qed.

Lemma bound_contains_iff b v :
  bound_contains b v = true <-> start b <c After v /\ Before v <c finish b.
Proof.
  unfold bound_contains. now rewrite andb_true_iff, above_iff, below_iff.
Qed.

Lemma contains_exists r v :
  contains r v = true <-> exists b, In b r /\ bound_contains b v = true.
Proof. unfold contains. apply existsb_exists. Qed.

Lemma bound_contains_nonempty b v :
  bound_contains b v = true -> nonempty b = true.
Proof.
  rewrite bound_contains_iff, lt_after_le_before. intros [H1 H2].
  apply cut_ltb_lt. eapply (Order.le_lt_trans cut_compare); eassumption.
Qed.

(** ** The half-open form holds the same versions *)

Lemma leb_negb_ltb v w : leb v w = negb (ltb w v).
Proof.
  unfold leb, ltb. rewrite (compare_antisym w v). now destruct (compare v w).
Qed.

Lemma leb_refl v : leb v v = true.
Proof. unfold leb. now rewrite compare_refl. Qed.

Lemma leb_nil v : leb [] v = true.
Proof. now destruct v. Qed.

Lemma ltb_nil v : ltb v [] = false.
Proof. now destruct v. Qed.

(** The versions from [w.0] on are those above [w]. *)
Lemma leb_next w v : leb (next w) v = ltb w v.
Proof.
  unfold next. now rewrite leb_negb_ltb, ltb_succ, leb_negb_ltb, negb_involutive.
Qed.

Lemma next_cons v : exists t w, next v = t :: w.
Proof. destruct v as [|t v]; simpl; eauto. Qed.

Lemma above_half_open_lower l v : above (half_open_lower l) v = above l v.
Proof.
  destruct l as [|[|t a]|a]; cbn [half_open_lower above]; try reflexivity.
  - symmetry. apply leb_nil.
  - apply leb_next.
Qed.

Lemma below_half_open_upper u v : below (half_open_upper u) v = below u v.
Proof.
  destruct u as [|b|b]; cbn [half_open_upper below]; try reflexivity.
  apply ltb_succ.
Qed.

Lemma bound_contains_half_open_form b v :
  bound_contains (half_open_form b) v = bound_contains b v.
Proof.
  unfold bound_contains, half_open_form. cbn [lower upper].
  now rewrite above_half_open_lower, below_half_open_upper.
Qed.

Lemma above_least b : above (lower b) (least b) = true.
Proof.
  unfold least. destruct (lower b) as [|a|a]; cbn [above].
  - reflexivity.
  - apply leb_refl.
  - unfold next. rewrite ltb_succ. apply leb_refl.
Qed.

Lemma least_le b v : above (lower b) v = true -> leb (least b) v = true.
Proof.
  unfold least. destruct (lower b) as [|a|a]; cbn [above]; intros H.
  - apply leb_nil.
  - exact H.
  - now rewrite leb_next.
Qed.

Lemma below_mono u v w : leb v w = true -> below u w = true -> below u v = true.
Proof.
  destruct u as [|b|b]; cbn [below]; [reflexivity | |].
  - rewrite !leb_le. apply (Order.le_trans compare).
  - rewrite leb_le, !ltb_lt. apply (Order.le_lt_trans compare).
Qed.

Lemma bound_contains_inhabited b v :
  bound_contains b v = true -> inhabited b = true.
Proof.
  unfold inhabited, bound_contains. rewrite !andb_true_iff. intros [Ha Hb].
  split; [apply above_least |].
  eapply below_mono; [apply least_le |]; eassumption.
Qed.

(** An interval is kept by normalisation exactly when it holds a
    version. *)
Lemma inhabited_iff b :
  inhabited b = true <-> exists v, bound_contains b v = true.
Proof.
  split; [intros H; now exists (least b) |].
  intros [v H]. now apply bound_contains_inhabited with v.
Qed.

Lemma half_open_form_id b : half_open b = true -> half_open_form b = b.
Proof.
  destruct b as [l u]. unfold half_open, half_open_form. cbn [lower upper].
  rewrite andb_true_iff. intros [Hl Hu].
  destruct l as [|[|t a]|a], u as [|w|[|t' w]]; try discriminate; reflexivity.
Qed.

Lemma half_open_form_half_open b :
  inhabited b = true -> half_open (half_open_form b) = true.
Proof.
  unfold inhabited, bound_contains, half_open, half_open_form.
  cbn [lower upper]. rewrite !andb_true_iff. intros [_ Hb]. split.
  - destruct (lower b) as [|[|t a]|a]; try reflexivity.
    cbn [half_open_lower]. destruct (next_cons a) as [t [w ->]]. reflexivity.
  - destruct (upper b) as [|w|[|t w]]; try reflexivity.
    + cbn [half_open_upper]. destruct (next_cons w) as [t [w' ->]]. reflexivity.
    + cbn [below] in Hb. rewrite ltb_nil in Hb. discriminate.
Qed.

Lemma half_open_form_nonempty b :
  inhabited b = true -> nonempty (half_open_form b) = true.
Proof.
  intros H. apply bound_contains_nonempty with (least b).
  now rewrite bound_contains_half_open_form.
Qed.

(** On intervals in half-open form, starting before the end is holding a
    version. *)
Lemma least_in b :
  half_open b = true -> nonempty b = true -> bound_contains b (least b) = true.
Proof.
  destruct b as [l u]. unfold half_open, nonempty, least, start, finish. simpl.
  rewrite andb_true_iff, cut_ltb_lt. intros [Hl Hu] Hn.
  apply bound_contains_iff. unfold start, finish. simpl.
  destruct l as [|[|t a]|a]; try discriminate Hl; simpl.
  - split; [reflexivity |].
    destruct u as [|w|[|t w]]; try discriminate Hu; reflexivity.
  - split; [apply before_lt_after | exact Hn].
Qed.

Lemma half_open_inhabited b :
  half_open b = true -> inhabited b = nonempty b.
Proof.
  intros Hh. apply eq_true_iff_eq. split.
  - apply bound_contains_nonempty.
  - now apply least_in.
Qed.

(** ** The order used to sort intervals *)

#[global] Instance bound_order : Order.Order bound_compare.
Proof.
  pose proof (Order.pair_order cut_compare cut_compare) as Hp.
  apply (Order.order_by_key (Order.pair_compare cut_compare cut_compare)
           (fun b => (start b, finish b))).
  intros [l1 u1] [l2 u2] H. unfold start, finish in H. simpl in H.
  inversion H as [[Hl Hu]].
  apply lower_cut_inj in Hl. apply upper_cut_inj in Hu. now subst.
Qed.

#[global] Instance bound_le_trans : Transitive bound_le.
Proof. intros b1 b2 b3. apply (Order.le_trans bound_compare). Qed.

#[global] Instance bound_le_antisym : AntiSymm (=) bound_le.
Proof. intros b1 b2. apply (Order.le_antisym bound_compare). Qed.

#[global] Instance bound_le_total : Total bound_le.
Proof. intros b1 b2. apply (Order.le_total bound_compare). Qed.

Lemma start_lt_bound_le b1 b2 : start b1 <c start b2 -> bound_le b1 b2.
Proof.
  unfold bound_le, bound_compare, Order.lt. intros ->. discriminate.
Qed.

(** ** Canonical ranges are fixed by normalisation *)

Lemma canonical_iff r :
  canonical r = true <-> forallb half_open r = true /\ separated r = true.
Proof. unfold canonical. apply andb_true_iff. Qed.

Lemma separated_cons b r :
  separated (b :: r) = true ->
  nonempty b = true /\ separated r = true /\
  match r with [] => True | b' :: _ => apart b b' = true end.
Proof.
  cbn [separated]. rewrite !andb_true_iff. intros [[H1 H2] H3].
  repeat split; try assumption. destruct r; [exact I | exact H2].
Qed.

Lemma separated_cons_intro b r :
  nonempty b = true -> separated r = true ->
  match r with [] => True | b' :: _ => apart b b' = true end ->
  separated (b :: r) = true.
Proof.
  intros H1 H2 H3. cbn [separated]. rewrite H1, H2.
  destruct r; [reflexivity | now rewrite H3].
Qed.

Lemma separated_nonempty r :
  separated r = true -> Forall (fun b => nonempty b = true) r.
Proof.
  induction r as [|b r IH]; intros H; [constructor |].
  apply separated_cons in H. destruct H as [H1 [H2 _]]. constructor; auto.
Qed.

Lemma filter_id {A} (f : A -> bool) l :
  Forall (fun x => f x = true) l -> List.filter f l = l.
Proof.
  induction 1 as [|x l Hx _ IH]; simpl; [reflexivity |]. now rewrite Hx, IH.
Qed.

Lemma map_id_on {A} (f : A -> A) l :
  Forall (fun x => f x = x) l -> map f l = l.
Proof.
  induction 1 as [|x l Hx _ IH]; simpl; [reflexivity |]. now rewrite Hx, IH.
Qed.

Lemma separated_Sorted r : separated r = true -> Sorted bound_le r.
Proof.
  induction r as [|b r IH]; intros H; [constructor |].
  apply separated_cons in H. destruct H as [Hb [Hr Hbr]].
  constructor; [auto |]. destruct r as [|b' r]; constructor.
  apply start_lt_bound_le. apply cut_ltb_lt in Hb, Hbr.
  eapply (Order.lt_trans cut_compare); eassumption.
Qed.

Lemma merge_from_separated_id b r :
  separated (b :: r) = true -> merge_from b r = b :: r.
Proof.
  revert b. induction r as [|b' r IH]; intros b H; [reflexivity |].
  apply separated_cons in H. destruct H as [_ [Hr Hbr]].
  cbn [merge_from]. rewrite Hbr. f_equal. now apply IH.
Qed.

Lemma merge_touching_separated_id r :
  separated r = true -> merge_touching r = r.
Proof. destruct r; [reflexivity | apply merge_from_separated_id]. Qed.

Lemma sort_merge_separated_id r :
  separated r = true -> merge_touching (merge_sort bound_le r) = r.
Proof.
  intros H.
  assert (Hs : merge_sort bound_le r = r).
  { apply (Sorted_unique bound_le).
    - apply (Sorted_merge_sort bound_le).
    - now apply separated_Sorted.
    - apply merge_sort_Permutation. }
  rewrite Hs. now apply merge_touching_separated_id.
Qed.

Lemma normalize_canonical_id r : canonical r = true -> normalize r = r.
Proof.
  rewrite canonical_iff. intros [Hh Hs]. unfold normalize.
  rewrite forallb_forall in Hh.
  pose proof (separated_nonempty r Hs) as Hn. rewrite List.Forall_forall in Hn.
  rewrite (filter_id inhabited r).
  - rewrite (map_id_on half_open_form r); [now apply sort_merge_separated_id |].
    apply List.Forall_forall. intros b Hb. apply half_open_form_id. now apply Hh.
  - apply List.Forall_forall. intros b Hb.
    rewrite half_open_inhabited by now apply Hh. now apply Hn.
Qed.

(** ** Normalisation yields canonical ranges *)

Lemma max_upper_ge_l u1 u2 : upper_cut u1 <=c upper_cut (max_upper u1 u2).
Proof.
  unfold max_upper. destruct (cut_leb _ _) eqn:E.
  - now apply cut_leb_le.
  - apply Order.le_refl, _.
Qed.

Lemma max_upper_ge_r u1 u2 : upper_cut u2 <=c upper_cut (max_upper u1 u2).
Proof.
  unfold max_upper. destruct (cut_leb _ _) eqn:E.
  - apply Order.le_refl, _.
  - apply cut_leb_gt in E. now apply (Order.lt_le cut_compare).
Qed.

Lemma merge_from_head cur rest :
  exists u tl, merge_from cur rest = {| lower := lower cur; upper := u |} :: tl.
Proof.
  revert cur. induction rest as [|b rest IH]; intros [l u]; cbn [merge_from].
  - now exists u, [].
  - destruct (apart _ b).
    + now exists u, (merge_from b rest).
    + apply (IH {| lower := l; upper := max_upper u (upper b) |}).
Qed.

Lemma merge_from_separated cur rest :
  nonempty cur = true ->
  Forall (fun b => nonempty b = true) rest ->
  separated (merge_from cur rest) = true.
Proof.
  intros Hc Hr. revert cur Hc.
  induction Hr as [|b rest Hb _ IH]; intros cur Hc; cbn [merge_from].
  - cbn. now rewrite Hc.
  - destruct (apart cur b) eqn:E.
    + apply separated_cons_intro; [assumption | now apply IH |].
      destruct (merge_from_head b rest) as [u [tl ->]]. exact E.
    + apply IH. apply cut_ltb_lt. apply cut_ltb_lt in Hc.
      eapply (Order.lt_le_trans cut_compare); [exact Hc |].
      apply max_upper_ge_l.
Qed.

Lemma sort_merge_separated bs :
  Forall (fun b => nonempty b = true) bs ->
  separated (merge_touching (merge_sort bound_le bs)) = true.
Proof.
  intros Hn.
  assert (H : Forall (fun b => nonempty b = true) (merge_sort bound_le bs)).
  { eapply Permutation_Forall; [| exact Hn].
    symmetry. apply merge_sort_Permutation. }
  destruct (merge_sort bound_le bs) as [|b l]; [reflexivity |].
  inversion H; subst. now apply merge_from_separated.
Qed.

Lemma merge_from_half_open cur rest :
  half_open cur = true -> forallb half_open rest = true ->
  forallb half_open (merge_from cur rest) = true.
Proof.
  revert cur. induction rest as [|b rest IH]; intros cur Hc Hr; cbn [merge_from].
  - cbn. now rewrite Hc.
  - cbn [forallb] in Hr. apply andb_true_iff in Hr. destruct Hr as [Hb Hr].
    destruct (apart cur b).
    + cbn [forallb]. rewrite Hc. now apply IH.
    + apply IH; [| assumption].
      unfold half_open in *. simpl.
      apply andb_true_iff in Hc, Hb. destruct Hc as [-> Hu], Hb as [_ Hu'].
      unfold max_upper. now destruct (cut_leb _ _).
Qed.

Lemma forallb_Permutation {A} (f : A -> bool) l1 l2 :
  Permutation l1 l2 -> forallb f l1 = forallb f l2.
Proof.
  induction 1 as [| x l1 l2 _ IH | x y l | l1 l2 l3 _ IH1 _ IH2]; simpl.
  - reflexivity.
  - now rewrite IH.
  - now rewrite !andb_assoc, (andb_comm (f y)).
  - congruence.
Qed.

Lemma sort_merge_half_open bs :
  forallb half_open bs = true ->
  forallb half_open (merge_touching (merge_sort bound_le bs)) = true.
Proof.
  intros H.
  assert (Hs : forallb half_open (merge_sort bound_le bs) = true)
    by now rewrite (forallb_Permutation _ _ _ (merge_sort_Permutation bound_le _)).
  destruct (merge_sort bound_le bs) as [|b l]; [reflexivity |].
  cbn [forallb] in Hs. apply andb_true_iff in Hs. destruct Hs as [Hb Hl].
  now apply merge_from_half_open.
Qed.

Lemma normalize_canonical bs : canonical (normalize bs) = true.
Proof.
  apply canonical_iff. unfold normalize. split.
  - apply sort_merge_half_open. apply forallb_forall. intros b Hb.
    apply in_map_iff in Hb. destruct Hb as [b' [<- Hb']].
    apply List.filter_In in Hb'. now apply half_open_form_half_open.
  - apply sort_merge_separated. apply List.Forall_forall. intros b Hb.
    apply in_map_iff in Hb. destruct Hb as [b' [<- Hb']].
    apply List.filter_In in Hb'. now apply half_open_form_nonempty.
Qed.

(** ** Intersections of single intervals *)

Lemma max_lower_comm l1 l2 : max_lower l1 l2 = max_lower l2 l1.
Proof.
  unfold max_lower.
  destruct (cut_leb (lower_cut l1) (lower_cut l2)) eqn:E1,
           (cut_leb (lower_cut l2) (lower_cut l1)) eqn:E2; try reflexivity.
  - apply cut_leb_le in E1, E2. apply lower_cut_inj.
    now apply (Order.le_antisym cut_compare).
  - apply cut_leb_gt in E1, E2. exfalso.
    apply (Order.lt_irrefl cut_compare (lower_cut l1)).
    eapply (Order.lt_trans cut_compare); eassumption.
Qed.

Lemma min_upper_comm u1 u2 : min_upper u1 u2 = min_upper u2 u1.
Proof.
  unfold min_upper.
  destruct (cut_leb (upper_cut u1) (upper_cut u2)) eqn:E1,
           (cut_leb (upper_cut u2) (upper_cut u1)) eqn:E2; try reflexivity.
  - apply cut_leb_le in E1, E2. apply upper_cut_inj.
    now apply (Order.le_antisym cut_compare).
  - apply cut_leb_gt in E1, E2. exfalso.
    apply (Order.lt_irrefl cut_compare (upper_cut u1)).
    eapply (Order.lt_trans cut_compare); eassumption.
Qed.

Lemma max_lower_ge_r l1 l2 : lower_cut l2 <=c lower_cut (max_lower l1 l2).
Proof.
  unfold max_lower. destruct (cut_leb _ _) eqn:E.
  - apply Order.le_refl, _.
  - apply cut_leb_gt in E. now apply (Order.lt_le cut_compare).
Qed.

Lemma max_lower_ge_l l1 l2 : lower_cut l1 <=c lower_cut (max_lower l1 l2).
Proof. rewrite max_lower_comm. apply max_lower_ge_r. Qed.

Lemma min_upper_le_l u1 u2 : upper_cut (min_upper u1 u2) <=c upper_cut u1.
Proof.
  unfold min_upper. destruct (cut_leb _ _) eqn:E.
  - apply Order.le_refl, _.
  - apply cut_leb_gt in E. now apply (Order.lt_le cut_compare).
Qed.

Lemma min_upper_le_r u1 u2 : upper_cut (min_upper u1 u2) <=c upper_cut u2.
Proof. rewrite min_upper_comm. apply min_upper_le_l. Qed.

(** ** Intervals of a canonical range lie apart *)

Lemma apart_trans b1 b2 b3 :
  apart b1 b2 = true -> nonempty b2 = true -> apart b2 b3 = true ->
  apart b1 b3 = true.
Proof.
  unfold apart, nonempty. rewrite !cut_ltb_lt. intros H1 H2 H3.
  eapply (Order.lt_trans cut_compare); [exact H1 |].
  eapply (Order.lt_trans cut_compare); eassumption.
Qed.

Lemma separated_apart_all b r :
  separated (b :: r) = true -> Forall (fun b' => apart b b' = true) r.
Proof.
  revert b. induction r as [|b1 r IH]; intros b H; [constructor |].
  apply separated_cons in H. destruct H as [_ [Hr Hb]].
  constructor; [exact Hb |].
  pose proof (separated_cons _ _ Hr) as [Hn1 _].
  eapply List.Forall_impl; [| apply IH, Hr].
  intros b' Hb'. simpl in Hb'. now apply apart_trans with b1.
Qed.

Lemma separated_app pre r :
  separated (pre ++ r) = true -> separated r = true.
Proof.
  induction pre as [|p pre IH]; simpl app; intros H; [exact H |].
  apply IH. now apply separated_cons in H.
Qed.

(** ** The operations compute what their names say

    Normalisation keeps the versions of a list of bounds, so the
    intersection holds the versions of both ranges and the union the
    versions of either. *)

Lemma contains_app r1 r2 v :
  contains (r1 ++ r2) v = contains r1 v || contains r2 v.
Proof. apply existsb_app. Qed.

Lemma contains_Permutation r1 r2 v :
  Permutation r1 r2 -> contains r1 v = contains r2 v.
Proof.
  unfold contains.
  induction 1 as [| b l1 l2 _ IH | b1 b2 l | l1 l2 l3 _ IH1 _ IH2]; simpl.
  - reflexivity.
  - now rewrite IH.
  - now rewrite !orb_assoc, (orb_comm (bound_contains b2 v)).
  - congruence.
Qed.

Lemma contains_filter_inhabited bs v :
  contains (List.filter inhabited bs) v = contains bs v.
Proof.
  induction bs as [|b bs IH]; simpl; [reflexivity |].
  destruct (inhabited b) eqn:E; simpl; rewrite IH; [reflexivity |].
  destruct (bound_contains b v) eqn:Ec; [| reflexivity].
  apply bound_contains_inhabited in Ec. congruence.
Qed.

Lemma contains_map_half_open_form bs v :
  contains (map half_open_form bs) v = contains bs v.
Proof.
  induction bs as [|b bs IH]; simpl; [reflexivity |].
  now rewrite bound_contains_half_open_form, IH.
Qed.

(** Two intervals that overlap or touch, merged, hold the versions of
    both. *)
Lemma bound_contains_merged cur b v :
  start cur <=c start b ->
  apart cur b = false ->
  bound_contains {| lower := lower cur;
                    upper := max_upper (upper cur) (upper b) |} v
  = bound_contains cur v || bound_contains b v.
Proof.
  intros Hs Ha. apply cut_ltb_ge in Ha.
  apply eq_true_iff_eq. rewrite orb_true_iff, !bound_contains_iff.
  unfold start, finish in *. simpl. split.
  - intros [H1 H2].
    destruct (cut_ltb (Before v) (upper_cut (upper cur))) eqn:E.
    + left. split; [assumption | now apply cut_ltb_lt].
    + right. apply cut_ltb_ge in E. split.
      * eapply (Order.le_lt_trans cut_compare); [exact Ha |].
        eapply (Order.le_lt_trans cut_compare); [exact E |].
        apply before_lt_after.
      * unfold max_upper in H2. destruct (cut_leb _ _) eqn:E2; [assumption |].
        exfalso. apply (Order.lt_irrefl cut_compare (Before v)).
        eapply (Order.lt_le_trans cut_compare); eassumption.
  - intros [[H1 H2] | [H1 H2]].
    + split; [assumption |].
      eapply (Order.lt_le_trans cut_compare); [exact H2 | apply max_upper_ge_l].
    + split.
      * eapply (Order.le_lt_trans cut_compare); eassumption.
      * eapply (Order.lt_le_trans cut_compare); [exact H2 | apply max_upper_ge_r].
Qed.

Lemma bound_le_start_le b1 b2 : bound_le b1 b2 -> start_le b1 b2.
Proof.
  unfold bound_le, bound_compare, start_le, Order.le, Order.lex.
  destruct (cut_compare (start b1) (start b2)); congruence.
Qed.

#[global] Instance start_le_trans : Transitive start_le.
Proof. intros x y z. apply (Order.le_trans cut_compare). Qed.

Lemma Sorted_weaken {A} (R1 R2 : A -> A -> Prop) l :
  (forall x y, R1 x y -> R2 x y) -> Sorted R1 l -> Sorted R2 l.
Proof.
  intros HR. induction 1 as [|x l _ IH Hd]; constructor; [assumption |].
  destruct Hd; constructor. now apply HR.
Qed.

Lemma merge_from_contains cur rest v :
  StronglySorted start_le (cur :: rest) ->
  contains (merge_from cur rest) v = bound_contains cur v || contains rest v.
Proof.
  revert cur. induction rest as [|b rest IH]; intros cur Hs; cbn [merge_from].
  - reflexivity.
  - inversion Hs as [|? ? Hrest Hall]; subst.
    inversion Hall as [|? ? Hb Hall']; subst.
    destruct (apart cur b) eqn:E.
    + cbn [contains existsb]. f_equal. now apply IH.
    + rewrite IH.
      * rewrite bound_contains_merged by assumption.
        cbn [contains existsb]. now rewrite orb_assoc.
      * inversion Hrest; subst. constructor; assumption.
Qed.

Lemma contains_merge_touching bs v :
  Sorted bound_le bs -> contains (merge_touching bs) v = contains bs v.
Proof.
  intros Hs. destruct bs as [|b bs]; [reflexivity |].
  apply merge_from_contains.
  apply (Sorted_StronglySorted start_le).
  eapply Sorted_weaken; [exact bound_le_start_le | exact Hs].
Qed.

Lemma contains_normalize bs v : contains (normalize bs) v = contains bs v.
Proof.
  unfold normalize.
  rewrite contains_merge_touching by apply (Sorted_merge_sort bound_le).
  rewrite (contains_Permutation _ _ v (merge_sort_Permutation bound_le _)).
  now rewrite contains_map_half_open_form, contains_filter_inhabited.
Qed.

Lemma max_lower_lt l1 l2 c :
  lower_cut (max_lower l1 l2) <c c <-> lower_cut l1 <c c /\ lower_cut l2 <c c.
Proof.
  split.
  - intros H. split; (eapply (Order.le_lt_trans cut_compare); [| exact H]);
      [apply max_lower_ge_l | apply max_lower_ge_r].
  - intros [H1 H2]. unfold max_lower. now destruct (cut_leb _ _).
Qed.

Lemma min_upper_gt u1 u2 c :
  c <c upper_cut (min_upper u1 u2) <-> c <c upper_cut u1 /\ c <c upper_cut u2.
Proof.
  split.
  - intros H. split; (eapply (Order.lt_le_trans cut_compare); [exact H |]);
      [apply min_upper_le_l | apply min_upper_le_r].
  - intros [H1 H2]. unfold min_upper. now destruct (cut_leb _ _).
Qed.

Lemma bound_contains_intersect b1 b2 v :
  bound_contains (bound_intersect b1 b2) v
  = bound_contains b1 v && bound_contains b2 v.
Proof.
  apply eq_true_iff_eq. rewrite andb_true_iff, !bound_contains_iff.
  unfold start, finish, bound_intersect. simpl.
  rewrite max_lower_lt, min_upper_gt. tauto.
Qed.

Lemma contains_pairwise r1 r2 v :
  contains (pairwise r1 r2) v = contains r1 v && contains r2 v.
Proof.
  unfold pairwise. induction r1 as [|b1 r1 IH]; simpl; [reflexivity |].
  rewrite contains_app, IH, andb_orb_distrib_l. f_equal.
  clear IH. induction r2 as [|b2 r2 IH]; simpl.
  - now rewrite andb_false_r.
  - change (existsb (fun b => bound_contains b v) ?l) with (contains l v).
    now rewrite IH, bound_contains_intersect, andb_orb_distrib_r.
Qed.

Lemma contains_intersect r1 r2 v :
  contains (intersect r1 r2) v = contains r1 v && contains r2 v.
Proof. unfold intersect. now rewrite contains_normalize, contains_pairwise. Qed.

Lemma contains_union r1 r2 v :
  contains (union r1 r2) v = contains r1 v || contains r2 v.
Proof. unfold union. now rewrite contains_normalize, contains_app. Qed.

Lemma contains_of_bounds bs v : contains (of_bounds bs) v = contains bs v.
Proof. apply contains_normalize. Qed.

(** ** The same versions force the same bounds *)

Lemma least_not_later b b' :
  half_open b = true -> half_open b' = true -> start b <c start b' ->
  bound_contains b' (least b) = false.
Proof.
  destruct b as [l u], b' as [l' u'].
  unfold half_open, least, start. simpl.
  rewrite !andb_true_iff. intros [Hl _] [Hl' _] Hlt.
  destruct (bound_contains _ _) eqn:E; [| reflexivity].
  apply bound_contains_iff in E. destruct E as [E _].
  unfold start in E. simpl in E. exfalso.
  destruct l' as [|[|t' c]|c]; try discriminate Hl'; simpl in *.
  - destruct l; discriminate Hlt.
  - destruct l as [|[|t a]|a]; try discriminate Hl; simpl in *.
    + apply before_after in E. now apply E.
    + apply before_after in E.
      apply (Order.lt_irrefl compare (t :: a)).
      exact (Order.lt_le_trans compare _ _ _ Hlt E).
Qed.

Lemma apart_not_both b b' v :
  apart b b' = true -> bound_contains b v = true ->
  bound_contains b' v = false.
Proof.
  unfold apart. rewrite cut_ltb_lt, bound_contains_iff. intros Ha [_ H].
  destruct (bound_contains b' v) eqn:E; [| reflexivity].
  apply bound_contains_iff in E. destruct E as [E _].
  apply lt_after_le_before in E. exfalso.
  apply (Order.lt_irrefl cut_compare (Before v)).
  eapply (Order.lt_trans cut_compare); [exact H |].
  eapply (Order.lt_le_trans cut_compare); eassumption.
Qed.

Lemma contains_false r v :
  (forall b, In b r -> bound_contains b v = false) -> contains r v = false.
Proof.
  intros H. destruct (contains r v) eqn:E; [| reflexivity].
  apply contains_exists in E. destruct E as [b [Hb Hc]].
  rewrite (H b Hb) in Hc. discriminate.
Qed.

Lemma separated_later_start b r b' :
  separated (b :: r) = true -> In b' r -> start b <c start b'.
Proof.
  intros Hc Hin. pose proof (separated_apart_all _ _ Hc) as Ha.
  rewrite List.Forall_forall in Ha. specialize (Ha b' Hin).
  apply separated_cons in Hc. destruct Hc as [Hn _].
  apply cut_ltb_lt in Ha, Hn. eapply (Order.lt_trans cut_compare); eassumption.
Qed.

(** The first interval of a canonical range starts where the versions of
    the range start. *)
Lemma first_start_not_before b1 r1 b2 r2 :
  separated (b1 :: r1) = true -> separated (b2 :: r2) = true ->
  forallb half_open (b1 :: r1) = true -> forallb half_open (b2 :: r2) = true ->
  (forall v, contains (b1 :: r1) v = contains (b2 :: r2) v) ->
  ~ start b1 <c start b2.
Proof.
  intros Hc1 Hc2 Hh1 Hh2 Hsame Hlt.
  cbn [forallb] in Hh1, Hh2. apply andb_true_iff in Hh1, Hh2.
  destruct Hh1 as [Hb1 _], Hh2 as [Hb2 Hr2].
  pose proof (separated_cons _ _ Hc1) as [Hn1 _].
  specialize (Hsame (least b1)). cbn [contains existsb] in Hsame.
  rewrite (least_in b1 Hb1 Hn1) in Hsame. simpl in Hsame.
  rewrite (least_not_later b1 b2 Hb1 Hb2 Hlt) in Hsame. simpl in Hsame.
  change (existsb _ r2) with (contains r2 (least b1)) in Hsame.
  rewrite contains_false in Hsame; [discriminate |].
  intros b' Hin. apply least_not_later; [assumption | |].
  - rewrite forallb_forall in Hr2. now apply Hr2.
  - eapply (Order.lt_trans cut_compare); [exact Hlt |].
    eapply separated_later_start; eassumption.
Qed.

(** ... and ends where they first stop. *)
Lemma first_finish_not_before b1 r1 b2 r2 :
  separated (b1 :: r1) = true -> separated (b2 :: r2) = true ->
  forallb half_open (b1 :: r1) = true -> forallb half_open (b2 :: r2) = true ->
  (forall v, contains (b1 :: r1) v = contains (b2 :: r2) v) ->
  start b1 = start b2 ->
  ~ finish b1 <c finish b2.
Proof.
  intros Hc1 Hc2 Hh1 Hh2 Hsame Hst Hlt.
  cbn [forallb] in Hh1, Hh2. apply andb_true_iff in Hh1, Hh2.
  destruct Hh1 as [Hb1 Hr1], Hh2 as [Hb2 _].
  pose proof (separated_cons _ _ Hc1) as [Hn1 _].
  apply cut_ltb_lt in Hn1.
  pose proof (separated_apart_all _ _ Hc1) as Ha1.
  rewrite List.Forall_forall in Ha1.
  destruct b1 as [l1 u1]. unfold half_open in Hb1. simpl in Hb1.
  apply andb_true_iff in Hb1. destruct Hb1 as [_ Hu1].
  unfold finish in Hlt, Hn1. simpl in Hlt, Hn1.
  destruct u1 as [|w|[|t w]]; try discriminate Hu1.
  { simpl in Hlt. destruct (upper_cut (upper b2)); discriminate Hlt. }
  simpl in Hlt, Hn1.
  specialize (Hsame (t :: w)). cbn [contains existsb] in Hsame.
  assert (H2 : bound_contains b2 (t :: w) = true).
  { apply bound_contains_iff. split; [| exact Hlt].
    rewrite <- Hst. eapply (Order.lt_trans cut_compare); [exact Hn1 |].
    apply before_lt_after. }
  assert (H1 : bound_contains {| lower := l1; upper := Exclusive (t :: w) |}
                 (t :: w) = false).
  { destruct (bound_contains _ _) eqn:E; [| reflexivity].
    apply bound_contains_iff in E. destruct E as [_ E].
    exfalso. now apply (Order.lt_irrefl cut_compare (Before (t :: w))). }
  rewrite H1, H2 in Hsame. simpl in Hsame.
  change (existsb _ r1) with (contains r1 (t :: w)) in Hsame.
  rewrite contains_false in Hsame; [discriminate |].
  intros b' Hin. specialize (Ha1 b' Hin). simpl in Ha1.
  unfold apart, finish in Ha1. simpl in Ha1. apply cut_ltb_lt in Ha1.
  destruct (bound_contains b' (t :: w)) eqn:E; [| reflexivity].
  apply bound_contains_iff in E. destruct E as [E _].
  apply lt_after_le_before in E. exfalso.
  apply (Order.lt_irrefl cut_compare (Before (t :: w))).
  eapply (Order.lt_le_trans cut_compare); eassumption.
Qed.

Lemma bound_eq b1 b2 : start b1 = start b2 -> finish b1 = finish b2 -> b1 = b2.
Proof.
  destruct b1, b2. unfold start, finish. simpl. intros H1 H2.
  apply lower_cut_inj in H1. apply upper_cut_inj in H2. now subst.
Qed.

Lemma half_open_unique r1 r2 :
  separated r1 = true -> separated r2 = true ->
  forallb half_open r1 = true -> forallb half_open r2 = true ->
  (forall v, contains r1 v = contains r2 v) ->
  r1 = r2.
Proof.
  revert r2. induction r1 as [|b1 r1 IH]; intros [|b2 r2] Hc1 Hc2 Hh1 Hh2 Hsame.
  - reflexivity.
  - exfalso. pose proof (separated_cons _ _ Hc2) as [Hn _].
    cbn [forallb] in Hh2. apply andb_true_iff in Hh2. destruct Hh2 as [Hb _].
    specialize (Hsame (least b2)). cbn [contains existsb] in Hsame.
    rewrite (least_in b2 Hb Hn) in Hsame. discriminate.
  - exfalso. pose proof (separated_cons _ _ Hc1) as [Hn _].
    cbn [forallb] in Hh1. apply andb_true_iff in Hh1. destruct Hh1 as [Hb _].
    specialize (Hsame (least b1)). cbn [contains existsb] in Hsame.
    rewrite (least_in b1 Hb Hn) in Hsame. discriminate.
  - assert (Hsame' : forall v, contains (b2 :: r2) v = contains (b1 :: r1) v)
      by (intros v; symmetry; apply Hsame).
    assert (Hst : start b1 = start b2).
    { destruct (Order.lt_total cut_compare (start b1) (start b2)) as [H|[H|H]];
        [exfalso | exact H | exfalso].
      - eapply (first_start_not_before b1 r1 b2 r2); eassumption.
      - eapply (first_start_not_before b2 r2 b1 r1); eassumption. }
    assert (Hfi : finish b1 = finish b2).
    { destruct (Order.lt_total cut_compare (finish b1) (finish b2)) as [H|[H|H]];
        [exfalso | exact H | exfalso].
      - eapply (first_finish_not_before b1 r1 b2 r2); eassumption.
      - eapply (first_finish_not_before b2 r2 b1 r1); try eassumption.
        now symmetry. }
    pose proof (bound_eq _ _ Hst Hfi) as ->.
    f_equal. apply IH.
    + now apply separated_cons in Hc1.
    + now apply separated_cons in Hc2.
    + cbn [forallb] in Hh1. now apply andb_true_iff in Hh1.
    + cbn [forallb] in Hh2. now apply andb_true_iff in Hh2.
    + intros v. specialize (Hsame v). cbn [contains existsb] in Hsame.
      change (existsb _ r1) with (contains r1 v) in Hsame.
      change (existsb _ r2) with (contains r2 v) in Hsame.
      destruct (bound_contains b2 v) eqn:E; [| exact Hsame].
      pose proof (separated_apart_all _ _ Hc1) as Ha1.
      pose proof (separated_apart_all _ _ Hc2) as Ha2.
      rewrite List.Forall_forall in Ha1, Ha2.
      rewrite !contains_false; [reflexivity | |];
        intros b' Hin; eapply apart_not_both; eauto.
Qed.

(** Canonical ranges that hold the same versions are the same list of
    bounds. *)
Lemma canonical_unique r1 r2 :
  canonical r1 = true -> canonical r2 = true ->
  (forall v, contains r1 v = contains r2 v) ->
  r1 = r2.
Proof.
  rewrite !canonical_iff. intros [Hh1 Hs1] [Hh2 Hs2].
  now apply half_open_unique.
Qed.

(** The invariant holds of the ranges that normalisation leaves alone, and
    of no other. *)
Lemma canonical_fixed r : canonical r = true <-> normalize r = r.
Proof.
  split; [apply normalize_canonical_id |].
  intros <-. apply normalize_canonical.
Qed.

Lemma normalize_same_versions bs1 bs2 :
  (forall v, contains bs1 v = contains bs2 v) -> normalize bs1 = normalize bs2.
Proof.
  intros H. apply canonical_unique; try apply normalize_canonical.
  intros v. now rewrite !contains_normalize.
Qed.

(** ** What the invariant says about versions *)

Lemma canonical_inhabited r b :
  canonical r = true -> In b r -> exists v, bound_contains b v = true.
Proof.
  rewrite canonical_iff, forallb_forall. intros [Hh Hs] Hb.
  pose proof (separated_nonempty r Hs) as Hn. rewrite List.Forall_forall in Hn.
  exists (least b). apply least_in; auto.
Qed.

(** Between two intervals that lie apart there is a version of neither. *)
Lemma apart_gap b1 b2 :
  half_open b1 = true -> apart b1 b2 = true ->
  exists w,
    (forall v, bound_contains b1 v = true -> ltb v w = true) /\
    (forall v, bound_contains b2 v = true -> ltb w v = true).
Proof.
  destruct b1 as [l1 u1]. unfold half_open, apart, finish. cbn [lower upper].
  rewrite andb_true_iff, cut_ltb_lt. intros [_ Hu] Ha.
  destruct u1 as [|w|[|t w]]; try discriminate Hu.
  { simpl in Ha. destruct (start b2); discriminate Ha. }
  simpl in Ha. exists (t :: w). split; intros v Hv.
  - apply bound_contains_iff in Hv. destruct Hv as [_ Hv]. now apply ltb_lt.
  - apply bound_contains_iff in Hv. destruct Hv as [Hv _].
    apply lt_after_le_before in Hv. apply ltb_lt, before_before.
    eapply (Order.lt_le_trans cut_compare); eassumption.
Qed.

Lemma canonical_gap pre b1 rest b2 :
  canonical (pre ++ b1 :: rest) = true -> In b2 rest ->
  exists w,
    (forall v, bound_contains b1 v = true -> ltb v w = true) /\
    (forall v, bound_contains b2 v = true -> ltb w v = true).
Proof.
  rewrite canonical_iff, forallb_forall. intros [Hh Hs] Hin.
  apply separated_app in Hs.
  pose proof (separated_apart_all _ _ Hs) as Ha.
  rewrite List.Forall_forall in Ha.
  apply apart_gap; [| now apply Ha].
  apply Hh. apply in_or_app. right. now left.
Qed.

(** ** The laws of intersection *)

Lemma intersect_comm r1 r2 : intersect r1 r2 = intersect r2 r1.
Proof.
  apply normalize_same_versions. intros v.
  rewrite !contains_pairwise. apply andb_comm.
Qed.

Lemma intersect_self r : intersect r r = of_bounds r.
Proof.
  apply normalize_same_versions. intros v.
  rewrite contains_pairwise. apply andb_diag.
Qed.

Lemma intersect_any_r r : intersect r any = of_bounds r.
Proof.
  apply normalize_same_versions. intros v.
  rewrite contains_pairwise, contains_any. apply andb_true_r.
Qed.

Lemma intersect_any_l r : intersect any r = of_bounds r.
Proof. rewrite intersect_comm. apply intersect_any_r. Qed.

Lemma intersect_empty_iff r1 r2 :
  intersect r1 r2 = [] <-> forall v, contains r1 v && contains r2 v = false.
Proof.
  split.
  - intros H v. now rewrite <- contains_intersect, H.
  - intros H. apply canonical_unique; [apply normalize_canonical | reflexivity |].
    intros v. now rewrite contains_intersect, H.
Qed.

(** The versions from 1 to 2 are the versions from 1 up to but not 2.0. *)
Lemma up_to_2_same_versions v : contains up_to_2 v = contains below_2_0 v.
Proof.
  unfold up_to_2, below_2_0, contains, bound_contains. simpl.
  change v2_0 with (v2 ++ [Num 0%N])%list. now rewrite ltb_succ.
Qed.

Lemma two_pieces_same_versions v : contains one_piece v = contains two_pieces v.
Proof.
  unfold one_piece, two_pieces, contains, bound_contains. simpl.
  rewrite !orb_false_r. apply eq_true_iff_eq.
  rewrite orb_true_iff, !andb_true_iff, !leb_le, !ltb_lt.
  assert (H12 : v1 <v v2) by reflexivity.
  assert (H23 : v2 <v v3) by reflexivity.
  split.
  - intros [Ha Hb].
    destruct (Order.lt_total compare v v2) as [H|[H|H]].
    + right. now split.
    + left. subst v. split; [apply Order.le_refl, _ | exact Hb].
    + left. split; [now apply (Order.lt_le compare) | exact Hb].
  - intros [[Ha Hb] | [Ha Hb]]; split; try assumption.
    + apply (Order.lt_le compare).
      eapply (Order.lt_le_trans compare); eassumption.
    + eapply (Order.lt_trans compare); eassumption.
Qed.

(** ** The claims on ranges *)

(** C2. For every range [r], [intersect r r = r]; for all ranges [r1] and
    [r2], [intersect r1 r2 = intersect r2 r1]; and intersecting [r] with
    the unbounded any range yields [r].  A range is a list of bounds that
    satisfies the invariant of the data model; the intersection holds the
    versions of both ranges.  For a list of bounds that does not satisfy
    the invariant the three laws hold with the canonical form of the list
    on the right; and the intersection is the empty range exactly when no
    version satisfies both. *)
Theorem intersect_laws :
  (forall r, canonical r = true -> intersect r r = r) /\
  (forall r1 r2, intersect r1 r2 = intersect r2 r1) /\
  (forall r, canonical r = true -> intersect r any = r /\ intersect any r = r) /\
  (forall r1 r2 v,
     contains (intersect r1 r2) v = contains r1 v && contains r2 v) /\
  (forall r,
     intersect r r = of_bounds r /\
     intersect r any = of_bounds r /\
     intersect any r = of_bounds r) /\
  (forall r1 r2,
     intersect r1 r2 = [] <->
     forall v, contains r1 v && contains r2 v = false).
Proof.
  split.
  { intros r Hc. rewrite intersect_self. now apply normalize_canonical_id. }
  split; [exact intersect_comm |].
  split.
  { intros r Hc. rewrite intersect_any_l, intersect_any_r.
    split; now apply normalize_canonical_id. }
  split; [exact contains_intersect |].
  split; [| exact intersect_empty_iff].
  intros r. split; [apply intersect_self |].
  split; [apply intersect_any_r | apply intersect_any_l].
Qed.

Lemma intersect_laws_witness :
  intersect range_a range_a = range_a /\
  intersect range_a range_b = intersect range_b range_a /\
  (intersect range_a any = range_a /\ intersect any range_a = range_a) /\
  intersect up_to_2 up_to_2 = of_bounds up_to_2.
Proof.
  destruct intersect_laws as [Hidem [Hcomm [Hany [_ [Hall _]]]]].
  split; [exact (Hidem range_a eq_refl) |].
  split; [exact (Hcomm range_a range_b) |].
  split; [exact (Hany range_a eq_refl) |].
  exact (proj1 (Hall up_to_2)).
Defined.

(** C4. Every range produced by a range operation (building the range from
    the bounds a text lists, intersection, union) satisfies the invariant:
    each of its bounds holds a version, the bounds are sorted and
    non-overlapping, and between any two of them lies a version of neither,
    so that no two adjacent bounds touch.  Ranges that satisfy the
    invariant and hold the same versions are structurally equal, and have
    equal hashes whatever the hash; hence lists of bounds that express the
    same versions differently give the same range.  The ranges that satisfy
    the invariant are those an operation returns as they are, and the
    operations keep the versions they are given. *)
Theorem operations_canonical :
  (forall bs, canonical (of_bounds bs) = true) /\
  (forall r1 r2, canonical (intersect r1 r2) = true) /\
  (forall r1 r2, canonical (union r1 r2) = true) /\
  (forall r, canonical r = true ->
     (forall b, In b r -> exists v, bound_contains b v = true) /\
     (forall pre b1 rest b2, r = (pre ++ b1 :: rest)%list -> In b2 rest ->
        exists w,
          (forall v, bound_contains b1 v = true -> ltb v w = true) /\
          (forall v, bound_contains b2 v = true -> ltb w v = true))) /\
  (forall r1 r2, canonical r1 = true -> canonical r2 = true ->
     (forall v, contains r1 v = contains r2 v) ->
     r1 = r2 /\
     forall (H : Type) (hash : VersionRange -> H), hash r1 = hash r2) /\
  (forall bs1 bs2, (forall v, contains bs1 v = contains bs2 v) ->
     of_bounds bs1 = of_bounds bs2) /\
  (forall r, canonical r = true <-> of_bounds r = r) /\
  (forall bs v, contains (of_bounds bs) v = contains bs v) /\
  (forall r1 r2 v, contains (union r1 r2) v = contains r1 v || contains r2 v).
Proof.
  split; [exact normalize_canonical |].
  split; [intros r1 r2; apply normalize_canonical |].
  split; [intros r1 r2; apply normalize_canonical |].
  split.
  { intros r Hc. split.
    - intros b Hb. now apply canonical_inhabited with r.
    - intros pre b1 rest b2 -> Hin. now apply canonical_gap with pre rest. }
  split.
  { intros r1 r2 H1 H2 Hsame.
    assert (Heq : r1 = r2) by now apply canonical_unique.
    split; [exact Heq |]. intros H hash. now rewrite Heq. }
  split; [exact normalize_same_versions |].
  split; [exact canonical_fixed |].
  split; [exact contains_of_bounds | exact contains_union].
Qed.

Lemma operations_canonical_witness :
  (exists w,
     (forall v, bound_contains {| lower := Inclusive v1; upper := Exclusive v3 |} v
                = true -> ltb v w = true) /\
     (forall v, bound_contains {| lower := Inclusive v5; upper := Exclusive v7 |} v
                = true -> ltb w v = true)) /\
  of_bounds up_to_2 = below_2_0 /\
  of_bounds up_to_2 = of_bounds below_2_0 /\
  of_bounds one_piece = of_bounds two_pieces.
Proof.
  destruct operations_canonical as [_ [_ [_ [Hinv [Huniq [Hsame _]]]]]].
  split; [| split; [| split]].
  - apply (proj2 (Hinv range_a eq_refl) [] _ _ _ eq_refl). now left.
  - apply (Huniq (of_bounds up_to_2) below_2_0 eq_refl eq_refl).
    intros v. rewrite contains_of_bounds. apply up_to_2_same_versions.
  - exact (Hsame up_to_2 below_2_0 up_to_2_same_versions).
  - exact (Hsame one_piece two_pieces two_pieces_same_versions).
Defined.

End Range.
